(** * Kaleidoscope front end: lexer and operator-precedence parser

    A shallow embedding of the lexer ([getTok]) and of the recursive-descent
    parser of the Kaleidoscope front end.  The repository has the front end
    in two programs: [src/main.cpp], which stops after parsing, and a second
    file, called [part_001] here, which goes on to LLVM code generation.  (A
    third file has the lexer and the AST only.)

    The two programs have the same lexer and the same parser, word for word,
    except for one place: the guard of [GetTokPrecedence] is
    [isascii(CurTok)] in [main.cpp] and [!isascii(CurTok)] in [part_001].
    The parser of both is in the model, selected by a [program].

    The driver ([HandleDefinition], [HandleExtern],
    [HandleTopLevelExpression], [MainLoop], [main]) is the one of
    [src/main.cpp]; the [switch] of its [MainLoop] has no [case tok_extern].
    The driver of [part_001] hands every parsed tree to the LLVM code
    generator and prints the module; it is not in the model.

    Modelling choices.
    - [int] values (characters read by [getchar], tokens, precedences) are
      [Z]; [EOF] is [-1].  A [char] is an [ascii]: eight bits, whatever the
      signedness of [char] on the platform, and the conversion from [int] to
      [char] keeps the low eight bits.
    - [stdin] is the string of the characters not read yet.
    - The file-scope variables and the [static] local [LastChar] are the
      fields of one record [state], threaded through every function.
    - A [std::unique_ptr] that may be null is an [option].
    - [stderr] is the list of what was printed, oldest first.
    - A [double] is an IEEE 754 binary64 number, a [spec_float] of the
      standard library with a precision of 53 bits and the exponent bound
      1024.
    - The parser is recursive and loops; each function of the parser takes a
      [fuel] bounding the depth of calls and the loop iterations, and returns
      [None] when the fuel is exhausted. *)

From stdpp Require Import gmap strings list.
From Stdlib Require Import ZArith Ascii String Lia.
From Stdlib Require Floats.SpecFloat.

Set Warnings "-register-all".

Local Open Scope string_scope.
Local Open Scope Z_scope.

(** ** Characters *)

Definition EOF : Z := -1.

(** The [int] value of a character read by [getchar]: [0..255]. *)
Definition chr (a : ascii) : Z := Z.of_N (N_of_ascii a).

(** Conversion of an [int] to [char]: the low eight bits. *)
Definition char_of_int (c : Z) : ascii := ascii_of_N (Z.to_N (c mod 256)).

(** <cctype> in the "C" locale. *)
Definition isspace (c : Z) : bool := (c =? 32) || ((9 <=? c) && (c <=? 13)).
Definition isupper (c : Z) : bool := (65 <=? c) && (c <=? 90).
Definition islower (c : Z) : bool := (97 <=? c) && (c <=? 122).
Definition isalpha (c : Z) : bool := isupper c || islower c.
Definition isdigit (c : Z) : bool := (48 <=? c) && (c <=? 57).
Definition isalnum (c : Z) : bool := isalpha c || isdigit c.
(** [isascii(c)] is [((c) & ~0x7f) == 0]. *)
Definition isascii (c : Z) : bool := Z.land c (Z.lnot 127) =? 0.

(** ** Tokens *)

Definition tok_eof : Z := -1.
Definition tok_def : Z := -2.
Definition tok_extern : Z := -3.
Definition tok_identifier : Z := -4.
Definition tok_number : Z := -5.

(** ** [double]

    IEEE 754 binary64: [S754_zero], [S754_infinity], [S754_nan], and
    [S754_finite s m e] for the number [(-1)^s * m * 2^e]. *)

Definition double : Type := SpecFloat.spec_float.

Definition prec : Z := 53.
Definition emax : Z := 1024.

(** ** [strtod]

    [strtod] belongs to the C library.  The lexer only passes it strings of
    decimal digits and ['.'], so the model covers that part of the C
    grammar: the subject sequence is the longest initial segment of the form
    [digits], [digits.], [digits.digits] or [.digits] with at least one
    digit; when there is none, no conversion is performed and the result is
    zero.  The result is the decimal number rounded to the nearest double,
    ties to even; a number too large for a double gives [HUGE_VAL], which is
    plus infinity, and a number too small gives a subnormal number or
    zero. *)

Definition digit_of (a : ascii) : option Z :=
  if isdigit (chr a) then Some (chr a - 48) else None.

(** Reads digits; [m] accumulates their value and [n] counts them. *)
Fixpoint scan_digits (s : string) (m : Z) (n : nat) : Z * nat * string :=
  match s with
  | String a r =>
      match digit_of a with
      | Some d => scan_digits r (10 * m + d) (S n)
      | None => (m, n, s)
      end
  | EmptyString => (m, n, s)
  end.

(** The double nearest to [m / 10 ^ frac_digits], for [0 <= m]: the quotient
    of the two integers is computed to more bits than a double holds, with
    the position of the exact quotient between two of them, and rounded as
    the division of two doubles is. *)
Definition decimal (m : Z) (frac_digits : nat) : double :=
  if m =? 0 then SpecFloat.S754_zero false
  else
    let '(q, e, l) :=
      SpecFloat.SFdiv_core_binary prec emax m 0
        (10 ^ Z.of_nat frac_digits) 0 in
    SpecFloat.binary_round_aux prec emax false q e l.

Definition strtod (nptr : string) : double :=
  let '(m1, n1, rest) := scan_digits nptr 0 0 in
  match rest with
  | String "."%char rest' =>
      let '(m2, n2, _) := scan_digits rest' m1 0 in
      if (n1 + n2 =? 0)%nat then decimal 0 0 else decimal m2 n2
  | _ => if (n1 =? 0)%nat then decimal 0 0 else decimal m1 0
  end.

(** ** The AST *)

Inductive ExprAST : Type :=
| NumberExprAST (Val : double)
| VariableExprAST (Name : string)
| BinaryExprAST (Op : ascii) (Lhs Rhs : ExprAST)
| CallExprAST (Callee : string) (Args : list ExprAST).

Record PrototypeAST : Type := mkPrototypeAST {
  Name : string;
  Args : list string
}.

Record FunctionAST : Type := mkFunctionAST {
  Proto : PrototypeAST;
  Body : ExprAST
}.

(** ** Program state *)

(** What a top-level handler passes on after a successful parse. *)
Inductive entity : Type :=
| Definition_ (F : FunctionAST)
| Extern_ (P : PrototypeAST)
| TopLevelExpr_ (F : FunctionAST).

(** What is written to [stderr]: the prompt ["ready> "], the line
    ["Error: Str"] of [LogError], and the report of a handler after a
    successful parse.  [main.cpp] prints a fixed line there, one for each
    kind of entity, and drops the tree; the model records the tree with
    the kind. *)
Inductive output : Type :=
| Ready
| Error (Str : string)
| Parsed (e : entity).

Record state : Type := mkState {
  stdin : string;
  LastChar : Z;
  IdentifierStr : string;
  NumVal : double;
  CurTok : Z;
  BinopPrecedence : gmap ascii Z;
  stderr : list output
}.

Definition set_lexer (s : state) (c : Z) (inp : string) : state :=
  mkState inp c (IdentifierStr s) (NumVal s) (CurTok s)
          (BinopPrecedence s) (stderr s).
Definition set_IdentifierStr (s : state) (id : string) : state :=
  mkState (stdin s) (LastChar s) id (NumVal s) (CurTok s)
          (BinopPrecedence s) (stderr s).
Definition set_NumVal (s : state) (v : double) : state :=
  mkState (stdin s) (LastChar s) (IdentifierStr s) v (CurTok s)
          (BinopPrecedence s) (stderr s).
Definition set_CurTok (s : state) (t : Z) : state :=
  mkState (stdin s) (LastChar s) (IdentifierStr s) (NumVal s) t
          (BinopPrecedence s) (stderr s).
Definition set_BinopPrecedence (s : state) (m : gmap ascii Z) : state :=
  mkState (stdin s) (LastChar s) (IdentifierStr s) (NumVal s) (CurTok s)
          m (stderr s).
Definition print (s : state) (o : output) : state :=
  mkState (stdin s) (LastChar s) (IdentifierStr s) (NumVal s) (CurTok s)
          (BinopPrecedence s) (stderr s ++ [o]).

(** ** The lexer *)

(** [getchar()]: the next character and the rest of the input. *)
Definition getchar (inp : string) : Z * string :=
  match inp with
  | String a r => (chr a, r)
  | EmptyString => (EOF, inp)
  end.

(** [while (isspace(LastChar)) LastChar = getchar();] *)
Fixpoint skip_whitespace (c : Z) (inp : string) : Z * string :=
  if isspace c then
    match inp with
    | String a r => skip_whitespace (chr a) r
    | EmptyString => (EOF, inp)
    end
  else (c, inp).

(** [while (isalnum((LastChar = getchar()))) IdentifierStr += LastChar;] *)
Fixpoint read_identifier (inp : string) (id : string) : string * Z * string :=
  match inp with
  | String a r =>
      if isalnum (chr a)
      then read_identifier r (id ++ String (char_of_int (chr a)) "")
      else (id, chr a, r)
  | EmptyString => (id, EOF, inp)
  end.

Definition is_num_char (c : Z) : bool := isdigit c || (c =? chr ".").

(** The rest of the [do ... while] loop of a number, after its first round:
    [NumStr += LastChar; LastChar = getchar();] as long as [LastChar] is a
    digit or ['.']. *)
Fixpoint read_number (inp : string) (NumStr : string) : string * Z * string :=
  match inp with
  | String a r =>
      if is_num_char (chr a)
      then read_number r (NumStr ++ String (char_of_int (chr a)) "")
      else (NumStr, chr a, r)
  | EmptyString => (NumStr, EOF, inp)
  end.

(** [do LastChar = getchar(); while (LastChar != EOF && LastChar != '\n'
    && LastChar != '\r');] *)
Fixpoint skip_comment (inp : string) : Z * string :=
  match inp with
  | String a r =>
      if (chr a =? 10) || (chr a =? 13) then (chr a, r) else skip_comment r
  | EmptyString => (EOF, inp)
  end.

(** The body of [getTok]; [getTok_again] is the call [return getTok();]
    after a comment. *)
Definition getTok_body (getTok_again : state -> option (Z * state)) (s : state)
  : option (Z * state) :=
  let '(c, inp) := skip_whitespace (LastChar s) (stdin s) in
  if isalpha c then
    let '(id, c', inp') := read_identifier inp (String (char_of_int c) "") in
    let s' := set_IdentifierStr (set_lexer s c' inp') id in
    if String.eqb id "def" then Some (tok_def, s')
    else if String.eqb id "extern" then Some (tok_extern, s')
    else Some (tok_identifier, s')
  else if is_num_char c then
    let '(NumStr, c', inp') := read_number inp (String (char_of_int c) "") in
    Some (tok_number, set_NumVal (set_lexer s c' inp') (strtod NumStr))
  else
    let after_comment :=
      if c =? chr "#" then
        let '(c', inp') := skip_comment inp in
        if negb (c' =? EOF) then inl (set_lexer s c' inp') else inr (c', inp')
      else inr (c, inp) in
    match after_comment with
    | inl s' => getTok_again s'
    | inr (c, inp) =>
        if c =? EOF then Some (tok_eof, set_lexer s c inp)
        else
          let ThisChar := c in
          let '(c', inp') := getchar inp in
          Some (ThisChar, set_lexer s c' inp')
    end.

(** [getTok], with [fuel] bounding the calls of [getTok] to itself. *)
Fixpoint getTok_fuel (fuel : nat) (s : state) : option (Z * state) :=
  getTok_body
    (match fuel with
     | S fuel' => getTok_fuel fuel'
     | O => fun _ => None
     end) s.

(** Every call of [getTok] to itself comes after at least one character was
    read, so the length of the input is fuel enough. *)
Definition getTok (s : state) : Z * state :=
  match getTok_fuel (String.length (stdin s)) s with
  | Some r => r
  | None => (tok_eof, s)
  end.

Definition getNextToken (s : state) : state :=
  let '(t, s') := getTok s in set_CurTok s' t.

(** ** Operator precedence *)

Inductive program : Type :=
| main_cpp   (* src/main.cpp *)
| part_001.  (* the file with code generation *)

(** [std::map::operator[]]: the value at the key; when the key is absent, a
    value-initialised entry (zero) is inserted first. *)
Definition map_subscript (m : gmap ascii Z) (k : ascii) : Z * gmap ascii Z :=
  match m !! k with
  | Some v => (v, m)
  | None => (0, <[k := 0]> m)
  end.

(** The guard that makes [GetTokPrecedence] return [-1] at once. *)
Definition precedence_guard (prog : program) (tok : Z) : bool :=
  match prog with
  | main_cpp => isascii tok
  | part_001 => negb (isascii tok)
  end.

Definition GetTokPrecedence (prog : program) (s : state) : Z * state :=
  if precedence_guard prog (CurTok s) then (-1, s)
  else
    let '(TokPrec, m) :=
      map_subscript (BinopPrecedence s) (char_of_int (CurTok s)) in
    let s := set_BinopPrecedence s m in
    if TokPrec <=? 0 then (-1, s) else (TokPrec, s).

(** ** The parser *)

(** [LogError] and [LogErrorP]: print the message, return null. *)
Definition LogError {A : Type} (Str : string) (s : state) : option A * state :=
  (None, print s (Error Str)).

Definition ParseNumberExpr (s : state) : option ExprAST * state :=
  let result := NumberExprAST (NumVal s) in
  let s := getNextToken s in
  (Some result, s).

(** [while (getNextToken() == tok_identifier)
      ArgNames.push_back(IdentifierStr);] *)
Fixpoint ParsePrototype_loop (fuel : nat) (s : state) (ArgNames : list string)
  : option (list string * state) :=
  match fuel with
  | O => None
  | S fuel =>
      let s := getNextToken s in
      if CurTok s =? tok_identifier
      then ParsePrototype_loop fuel s (ArgNames ++ [IdentifierStr s])%list
      else Some (ArgNames, s)
  end.

Definition ParsePrototype (fuel : nat) (s : state)
  : option (option PrototypeAST * state) :=
  if negb (CurTok s =? tok_identifier)
  then Some (LogError "Expected function name in prototype" s)
  else
    let FnName := IdentifierStr s in
    let s := getNextToken s in
    if negb (CurTok s =? chr "(")
    then Some (LogError "Expected '(' in prototype" s)
    else
      '(ArgNames, s) ← ParsePrototype_loop fuel s [];
      if negb (CurTok s =? chr ")")
      then Some (LogError "Expected ')' in prototype" s)
      else
        let s := getNextToken s in
        Some (Some (mkPrototypeAST FnName ArgNames), s).

Definition ParseExtern (fuel : nat) (s : state)
  : option (option PrototypeAST * state) :=
  let s := getNextToken s in
  ParsePrototype fuel s.

Section Parser.

Variable prog : program.

Fixpoint ParsePrimary (fuel : nat) (s : state) {struct fuel}
  : option (option ExprAST * state) :=
  match fuel with
  | O => None
  | S fuel =>
      if CurTok s =? tok_identifier then ParseIdentifierExpr fuel s
      else if CurTok s =? tok_number then Some (ParseNumberExpr s)
      else if CurTok s =? chr "(" then ParseParenExpr fuel s
      else Some (LogError "unknown token, expecting expression" s)
  end

with ParseParenExpr (fuel : nat) (s : state) {struct fuel}
  : option (option ExprAST * state) :=
  match fuel with
  | O => None
  | S fuel =>
      let s := getNextToken s in
      '(V, s) ← ParseExpression fuel s;
      match V with
      | None => Some (None, s)
      | Some V =>
          if negb (CurTok s =? chr ")")
          then Some (LogError "expected ')'" s)
          else
            let s := getNextToken s in
            Some (Some V, s)
      end
  end

with ParseIdentifierExpr (fuel : nat) (s : state) {struct fuel}
  : option (option ExprAST * state) :=
  match fuel with
  | O => None
  | S fuel =>
      let IdName := IdentifierStr s in
      let s := getNextToken s in
      if negb (CurTok s =? chr "(")
      then Some (Some (VariableExprAST IdName), s)
      else
        let s := getNextToken s in
        '(Args, s) ←
          (if negb (CurTok s =? chr ")")
           then ParseIdentifierExpr_loop fuel s []
           else Some (Some [], s));
        match Args with
        | None => Some (None, s)
        | Some Args =>
            let s := getNextToken s in
            Some (Some (CallExprAST IdName Args), s)
        end
  end

(** The [while (true)] loop over the arguments of a call; [Some Args] when
    the loop is left by [break], [None] when it returns null. *)
with ParseIdentifierExpr_loop (fuel : nat) (s : state) (Args : list ExprAST)
  {struct fuel} : option (option (list ExprAST) * state) :=
  match fuel with
  | O => None
  | S fuel =>
      '(Arg, s) ← ParseExpression fuel s;
      match Arg with
      | None => Some (None, s)
      | Some Arg =>
          let Args := (Args ++ [Arg])%list in
          if CurTok s =? chr ")" then Some (Some Args, s)
          else if negb (CurTok s =? chr ",")
          then Some (LogError "Expected ')' or ',' in argument list" s)
          else
            let s := getNextToken s in
            ParseIdentifierExpr_loop fuel s Args
      end
  end

(** The body of [ParseBinOpRHS] is one [while (true)] loop: the call at the
    end is the next iteration. *)
with ParseBinOpRHS (fuel : nat) (ExprPrec : Z) (LHS : ExprAST) (s : state)
  {struct fuel} : option (option ExprAST * state) :=
  match fuel with
  | O => None
  | S fuel =>
      let '(TokPrec, s) := GetTokPrecedence prog s in
      if TokPrec <? ExprPrec then Some (Some LHS, s)
      else
        let BinOp := CurTok s in
        let s := getNextToken s in
        '(RHS, s) ← ParsePrimary fuel s;
        match RHS with
        | None => Some (None, s)
        | Some RHS =>
            let '(NextPrec, s) := GetTokPrecedence prog s in
            '(RHS, s) ←
              (if TokPrec <? NextPrec
               then ParseBinOpRHS fuel (TokPrec + 1) RHS s
               else Some (Some RHS, s));
            match RHS with
            | None => Some (None, s)
            | Some RHS =>
                ParseBinOpRHS fuel ExprPrec
                  (BinaryExprAST (char_of_int BinOp) LHS RHS) s
            end
        end
  end

with ParseExpression (fuel : nat) (s : state) {struct fuel}
  : option (option ExprAST * state) :=
  match fuel with
  | O => None
  | S fuel =>
      '(LHS, s) ← ParsePrimary fuel s;
      match LHS with
      | None => Some (None, s)
      | Some LHS => ParseBinOpRHS fuel 0 LHS s
      end
  end.

Definition ParseDefinition (fuel : nat) (s : state)
  : option (option FunctionAST * state) :=
  let s := getNextToken s in
  '(Proto, s) ← ParsePrototype fuel s;
  match Proto with
  | None => Some (None, s)
  | Some Proto =>
      '(E, s) ← ParseExpression fuel s;
      match E with
      | Some E => Some (Some (mkFunctionAST Proto E), s)
      | None => Some (None, s)
      end
  end.

Definition ParseTopLevelExpr (fuel : nat) (s : state)
  : option (option FunctionAST * state) :=
  '(E, s) ← ParseExpression fuel s;
  match E with
  | Some E =>
      let Proto := mkPrototypeAST "" [] in
      Some (Some (mkFunctionAST Proto E), s)
  | None => Some (None, s)
  end.

End Parser.

(** ** The driver of [src/main.cpp] *)

Definition HandleDefinition (fuel : nat) (s : state) : option state :=
  '(F, s) ← ParseDefinition main_cpp fuel s;
  match F with
  | Some F => Some (print s (Parsed (Definition_ F)))
  | None => Some (getNextToken s)
  end.

(** Defined in [src/main.cpp], and called nowhere. *)
Definition HandleExtern (fuel : nat) (s : state) : option state :=
  '(P, s) ← ParseExtern fuel s;
  match P with
  | Some P => Some (print s (Parsed (Extern_ P)))
  | None => Some (getNextToken s)
  end.

Definition HandleTopLevelExpression (fuel : nat) (s : state) : option state :=
  '(F, s) ← ParseTopLevelExpr main_cpp fuel s;
  match F with
  | Some F => Some (print s (Parsed (TopLevelExpr_ F)))
  | None => Some (getNextToken s)
  end.

(** The cases of the [switch] of [MainLoop]. *)
Inductive dispatch : Type :=
| case_eof | case_semicolon | case_def | case_default.

Definition MainLoop_switch (tok : Z) : dispatch :=
  if tok =? tok_eof then case_eof
  else if tok =? chr ";" then case_semicolon
  else if tok =? tok_def then case_def
  else case_default.

Fixpoint MainLoop (fuel : nat) (s : state) : option state :=
  match fuel with
  | O => None
  | S fuel =>
      let s := print s Ready in
      match MainLoop_switch (CurTok s) with
      | case_eof => Some s
      | case_semicolon => MainLoop fuel (getNextToken s)
      | case_def => s ← HandleDefinition fuel s; MainLoop fuel s
      | case_default => s ← HandleTopLevelExpression fuel s; MainLoop fuel s
      end
  end.

(** The state of the program when [main] starts: [LastChar] is [' '], the
    other variables are zero-initialised. *)
Definition initial (input : string) : state :=
  mkState input (chr " ") "" (SpecFloat.S754_zero false) 0 ∅ [].

(** [BinopPrecedence[Op] = Prec;] *)
Definition set_precedence (s : state) (Op : ascii) (Prec : Z) : state :=
  set_BinopPrecedence s (<[Op := Prec]> (BinopPrecedence s)).

(** [main] up to the call of [MainLoop]: fill the table, print the prompt,
    read the first token. *)
Definition start (input : string) : state :=
  let s := initial input in
  let s := set_precedence s "<" 10 in
  let s := set_precedence s "+" 20 in
  let s := set_precedence s "-" 20 in
  let s := set_precedence s "*" 40 in
  let s := print s Ready in
  getNextToken s.

Definition main (fuel : nat) (input : string) : option state :=
  MainLoop fuel (start input).

(** The table [main] fills. *)
Definition default_table : gmap ascii Z :=
  <["*"%char := 40]> (<["-"%char := 20]> (<["+"%char := 20]>
    (<["<"%char := 10]> ∅))).

(** ** Vocabulary of the statements *)

(** The double of an integer; the conversion is exact up to [2^53]. *)
Definition double_of_Z (z : Z) : double :=
  SpecFloat.binary_normalize prec emax z 0 false.

(** [n] arguments of a call, each followed by [','], parsed from [s] on:
    their trees, and the state after the last [','] was consumed. *)
Fixpoint arguments (prog : program) (fuel n : nat) (s : state)
  : option (list ExprAST * state) :=
  match n with
  | O => Some ([], s)
  | S n =>
      '(Arg, s) ← ParseExpression prog fuel s;
      match Arg with
      | Some Arg =>
          if CurTok s =? chr ","
          then '(Args, s) ← arguments prog fuel n (getNextToken s);
               Some (Arg :: Args, s)
          else None
      | None => None
      end
  end.

(** A string of digits and ['.'] only. *)
Fixpoint all_num_chars (run : string) : bool :=
  match run with
  | String a r => is_num_char (chr a) && all_num_chars r
  | EmptyString => true
  end.

(** A string of digits only, and a string that starts with a digit. *)
Fixpoint all_digits (d : string) : bool :=
  match d with
  | String a r => isdigit (chr a) && all_digits r
  | EmptyString => true
  end.

Definition starts_with_digit (x : string) : bool :=
  match x with
  | String a _ => isdigit (chr a)
  | EmptyString => false
  end.

(** What a caller sees of a parse: the result, the token the parser stopped
    on and everything printed so far. *)
Definition observe {A : Type} (r : option (A * state))
  : option (A * Z * list output) :=
  '(a, s) ← r; Some (a, CurTok s, stderr s).

(** [n] calls of [getNextToken]. *)
Fixpoint advance (n : nat) (s : state) : state :=
  match n with
  | O => s
  | S n => advance n (getNextToken s)
  end.

(** The next [n] tokens, and the [IdentifierStr] that comes with each. *)
Fixpoint tokens (n : nat) (s : state) : list Z :=
  match n with
  | O => []
  | S n => CurTok (getNextToken s) :: tokens n (getNextToken s)
  end.

Fixpoint identifiers (n : nat) (s : state) : list string :=
  match n with
  | O => []
  | S n => IdentifierStr (getNextToken s) :: identifiers n (getNextToken s)
  end.

(** The parse of the call that starts at [s] returns null and leaves the
    state [s']: in [ParseIdentifierExpr], which parses every call, and in
    [ParsePrimary] and [ParseExpression] when the current token is the
    identifier. *)
Definition call_fails (prog : program) (fuel : nat) (s s' : state) : Prop :=
  ParseIdentifierExpr prog (fuel + 2) s = Some (None, s')
  /\ (CurTok s = tok_identifier ->
      ParsePrimary prog (fuel + 3) s = Some (None, s')
      /\ ParseExpression prog (fuel + 4) s = Some (None, s')).

(** [m'] has the entries of [m], unchanged, and possibly more keys, each
    with the value zero. *)
Definition zero_extends (m m' : gmap ascii Z) : Prop :=
  forall k : ascii, m' !! k = m !! k \/ (m !! k = None /\ m' !! k = Some 0).

(** The precedence [GetTokPrecedence] is meant to compute: the value the
    table gives to the character of the token when it is positive, [-1]
    otherwise. *)
Definition registered_precedence (m : gmap ascii Z) (tok : Z) : Z :=
  if (0 <=? tok) && (tok <? 256) then
    match m !! char_of_int tok with
    | Some v => if 0 <? v then v else -1
    | None => -1
    end
  else -1.

(** The tokens [getTok] can return: the five negative ones and the
    characters. *)
Definition is_token (tok : Z) : Prop := -5 <= tok < 256.

(** What [LastChar] holds: a character or [EOF]. *)
Definition char_or_EOF (c : Z) : Prop := -1 <= c < 256.

(** More fuel never changes a result.  One step of the proof: follow the
    function in the hypothesis, and rewrite each call in the goal with the
    induction hypothesis. *)
Ltac fuel_step :=
  simpl in *;
  match goal with
  | H : None = Some _ |- _ => discriminate H
  | H : ?x = Some ?r |- ?x = Some ?r => exact H
  | H : (?c ≫= _) = Some _ |- _ =>
      lazymatch c with
      | (if ?b then _ else _) => destruct b eqn:?
      | Some _ => fail
      | _ =>
          let E := fresh "E" in
          destruct c as [[? ?]|] eqn:E; [|discriminate H];
          match goal with
          | IH : forall _, _ |- _ => erewrite IH by exact E
          end
      end
  | H : context [match ?x with _ => _ end] |- _ => destruct x eqn:?
  | H : _ = Some ?r |- _ = Some ?r => solve [eauto]
  end.

(** [keeps_table s0 s]: from [s0] to [s], the table only gained zero
    entries. *)
Definition keeps_table (s0 s : state) : Prop :=
  zero_extends (BinopPrecedence s0) (BinopPrecedence s).

(** One step of a proof that follows a parsing function to its results. *)
Ltac table_step :=
  try unfold ParseNumberExpr, LogError in *; simpl in *;
  match goal with
  | H : None = Some _ |- _ => discriminate H
  | H : Some _ = Some _ |- _ => simplify_eq
  | H : (?c ≫= _) = Some _ |- _ =>
      lazymatch c with
      | (if ?b then _ else _) => destruct b eqn:?
      | Some _ => fail
      | _ => destruct c as [[? ?]|] eqn:?; [|discriminate H]
      end
  | H : context [match ?x with _ => _ end] |- _ => destruct x eqn:?
  end.


(** A parse fails with the diagnostic [Str]: it returns null and [Str] is
    among the errors printed. *)
Definition fails_with {A : Type} (Str : string)
    (r : option (option A * state)) : Prop :=
  exists s' : state, r = Some (None, s') /\ In (Error Str) (stderr s').

(** Settles a statement on a concrete input and any fuel [N + k]: evaluate
    with the fuel [N], and lift the result with the monotonicity lemma. *)
Ltac settle_by_fuel mono :=
  match goal with
  | |- context [?f (?N + ?k)%nat ?s] =>
      let v := eval vm_compute in (f N s) in
      lazymatch v with
      | Some ?r =>
          let E := fresh "E" in
          assert (E : f N s = Some r) by (vm_compute; reflexivity);
          rewrite (mono N (N + k)%nat s r ltac:(lia) E);
          vm_compute; reflexivity
      end
  end.

(** ** Vocabulary of the further properties *)

(** A string of letters and digits only. *)
Fixpoint all_alnum (run : string) : bool :=
  match run with
  | String a r => isalnum (chr a) && all_alnum r
  | EmptyString => true
  end.

(** The token of a word: a keyword or an identifier. *)
Definition word_token (word : string) : Z :=
  if String.eqb word "def" then tok_def
  else if String.eqb word "extern" then tok_extern
  else tok_identifier.

Definition is_newline (c : Z) : bool := (c =? 10) || (c =? 13).

(** Text without an end of line. *)
Fixpoint no_newline (body : string) : bool :=
  match body with
  | String a r => negb (is_newline (chr a)) && no_newline r
  | EmptyString => true
  end.

(** Input made of white space and comments only; [in_comment] tells
    whether the text starts inside a comment. *)
Fixpoint blank (in_comment : bool) (inp : string) : bool :=
  match inp with
  | String a r =>
      if in_comment then blank (negb (is_newline (chr a))) r
      else if isspace (chr a) then blank false r
      else if chr a =? chr "#" then blank true r
      else false
  | EmptyString => true
  end.

(** A character that is a token by itself: not white space, not a letter,
    not a digit or ['.'], not ['#']. *)
Definition is_punctuation (t : Z) : bool :=
  negb (isspace t) && negb (isalpha t) && negb (is_num_char t)
  && negb (t =? chr "#") && negb (t =? EOF).

(** The characters the lexer has still to look at: the input not read yet
    and the pending character, when there is one. *)
Definition pending (c : Z) : nat := if c =? EOF then 0%nat else 1%nat.

Definition remaining (s : state) : nat :=
  String.length (stdin s) + pending (LastChar s).

(** The diagnostics of the expression parser and of the prototype parser. *)
Definition expression_errors : list string :=
  ["unknown token, expecting expression"; "expected ')'";
   "Expected ')' or ',' in argument list"].

Definition prototype_errors : list string :=
  ["Expected function name in prototype"; "Expected '(' in prototype";
   "Expected ')' in prototype"].

(** What a parsing function that went from [s] to [s'] with the result [r]
    has printed: nothing when it returned a tree, one diagnostic of [msgs]
    when it returned null. *)
Definition reports {A : Type} (msgs : list string) (s s' : state)
    (r : option A) : Prop :=
  match r with
  | Some _ => stderr s' = stderr s
  | None => exists msg, In msg msgs /\ stderr s' = (stderr s ++ [Error msg])%list
  end.

(** One step of a proof about what a parsing function prints. *)
Ltac reports_IH E :=
  match goal with
  | IH : forall _, _ |- _ =>
      first [ pose proof (IH _ _ _ E) | pose proof (IH _ _ _ _ E)
            | pose proof (IH _ _ _ _ _ E) ]
  end.

Ltac reports_step :=
  try unfold ParseNumberExpr, LogError in *; simpl in *;
  match goal with
  | H : None = Some _ |- _ => discriminate H
  | H : Some _ = Some _ |- _ => simplify_eq
  | H : (?c ≫= _) = Some _ |- _ =>
      lazymatch c with
      | (if ?b then _ else _) => destruct b eqn:?
      | Some _ => fail
      | _ =>
          let E := fresh "E" in
          destruct c as [[? ?]|] eqn:E; [reports_IH E | discriminate H]
      end
  | H : context [match ?x with _ => _ end] |- _ => destruct x eqn:?
  end.

(** The operators of the [BinaryExprAST] nodes of a tree. *)
Fixpoint operators (e : ExprAST) : list ascii :=
  match e with
  | NumberExprAST _ => []
  | VariableExprAST _ => []
  | BinaryExprAST Op Lhs Rhs => Op :: operators Lhs ++ operators Rhs
  | CallExprAST _ Args => List.concat (List.map operators Args)
  end.

(** [Op] has a positive precedence in the table [m]. *)
Definition registered (m : gmap ascii Z) (Op : ascii) : Prop :=
  exists v : Z, m !! Op = Some v /\ 0 < v.

Definition operators_registered (m : gmap ascii Z) (e : ExprAST) : Prop :=
  Forall (registered m) (operators e).

Definition all_operators_registered (m : gmap ascii Z) (l : list ExprAST)
  : Prop :=
  Forall (registered m) (List.concat (List.map operators l)).

(** What the parser has still to look at: the characters of the lexer,
    counted twice, and the current token unless it is [tok_eof]. *)
Definition unread (s : state) : nat :=
  2 * remaining s + (if CurTok s =? tok_eof then 0%nat else 1%nat).

(** A call returns, without giving anything back to the input; and a call
    returns and, when its result is not null, has consumed something. *)
Definition halts {A : Type} (s : state) (f : option (option A * state))
  : Prop :=
  exists r s', f = Some (r, s') /\ (unread s' <= unread s)%nat.

Definition advances {A : Type} (s : state) (f : option (option A * state))
  : Prop :=
  exists r s', f = Some (r, s') /\ (unread s' <= unread s)%nat
               /\ (r <> None -> (unread s' < unread s)%nat).

(** A state the lexer can leave, with the table [main] fills, possibly
    with more zero entries. *)
Definition default_state (s : state) : Prop :=
  char_or_EOF (LastChar s) /\ is_token (CurTok s)
  /\ zero_extends default_table (BinopPrecedence s).

(** A result without any binary operator. *)
Definition no_operators (r : option ExprAST) : Prop :=
  match r with
  | Some e => operators e = []
  | None => True
  end.

Definition no_operators_list (r : option (list ExprAST)) : Prop :=
  match r with
  | Some l => List.concat (List.map operators l) = []
  | None => True
  end.


(** * Properties of the lexer *)

Section Lexer.

Lemma char_of_int_chr (a : ascii) : char_of_int (chr a) = a.
Proof.
  unfold char_of_int, chr.
  pose proof (N_ascii_bounded a) as Hb.
  rewrite Z.mod_small by lia.
  rewrite N2Z.id. apply ascii_N_embedding.
Qed.

Lemma chr_range (a : ascii) : 0 <= chr a < 256.
Proof. unfold chr. pose proof (N_ascii_bounded a). lia. Qed.

Lemma append_String (a : ascii) (x y : string) :
  (String a x ++ y)%string = String a (x ++ y).
Proof. reflexivity. Qed.

Lemma append_empty_r (x : string) : (x ++ "")%string = x.
Proof.
  induction x as [|b x IH]; [reflexivity|].
  now rewrite append_String, IH.
Qed.

Lemma append_cons_r (x : string) (a : ascii) (y : string) :
  ((x ++ String a "") ++ y)%string = (x ++ String a y)%string.
Proof.
  induction x as [|b x IH]; [reflexivity|].
  now rewrite !append_String, IH.
Qed.

Lemma length_append (x y : string) :
  String.length (x ++ y) = (String.length x + String.length y)%nat.
Proof.
  induction x as [|b x IH]; [reflexivity|].
  rewrite append_String. simpl. now rewrite IH.
Qed.

(** [isascii] is the range test [0 <= c <= 127]. *)
Lemma isascii_range (c : Z) : isascii c = (0 <=? c) && (c <=? 127).
Proof.
  unfold isascii.
  destruct (Z.leb_spec 0 c) as [Hc|Hc]; simpl.
  - destruct (Z.leb_spec c 127) as [Hc'|Hc'].
    + apply Z.eqb_eq. apply Z.bits_inj'. intros n Hn.
      rewrite Z.land_spec, Z.lnot_spec, Z.bits_0 by lia.
      destruct (Z.ltb_spec n 7) as [Hn7|Hn7].
      * replace (Z.testbit 127 n) with true; [now rewrite andb_false_r|].
        assert (Hcases : n = 0 \/ n = 1 \/ n = 2 \/ n = 3 \/ n = 4 \/ n = 5
                         \/ n = 6) by lia.
        destruct Hcases as [->|[->|[->|[->|[->|[->| ->]]]]]]; reflexivity.
      * rewrite (Z.bits_above_log2 c n); [reflexivity | lia |].
        destruct (Z.eq_dec c 0) as [->|Hnz]; [simpl; lia|].
        assert (Z.log2 c < 7); [|lia].
        apply Z.log2_lt_pow2; [lia | simpl; lia].
    + apply Z.eqb_neq. intros Heq.
      assert (Hb : Z.testbit (Z.land c (Z.lnot 127)) (Z.log2 c) = false)
        by (rewrite Heq; apply Z.bits_0).
      rewrite Z.land_spec, Z.lnot_spec in Hb by apply Z.log2_nonneg.
      rewrite Z.bit_log2 in Hb by lia. simpl in Hb.
      assert (H7 : 7 <= Z.log2 c).
      { apply Z.log2_le_pow2; [lia | simpl; lia]. }
      rewrite (Z.bits_above_log2 127 (Z.log2 c)) in Hb;
        [discriminate | lia | simpl; lia].
  - apply Z.eqb_neq. intros Heq.
    assert (Hb : Z.testbit (Z.land c (Z.lnot 127))
                   (Z.max 7 (Z.log2 (Z.pred (- c)) + 1)) = false)
      by (rewrite Heq; apply Z.bits_0).
    rewrite Z.land_spec, Z.lnot_spec in Hb by lia.
    rewrite (Z.bits_above_log2 127) in Hb; [|lia | simpl; lia].
    rewrite Z.bits_above_log2_neg in Hb; [discriminate | lia | lia].
Qed.

Lemma isascii_chr_lt (a : ascii) : isascii (chr a) = (chr a <? 128).
Proof.
  rewrite isascii_range. pose proof (chr_range a).
  destruct (Z.leb_spec 0 (chr a)), (Z.leb_spec (chr a) 127),
    (Z.ltb_spec (chr a) 128); simpl; try reflexivity; lia.
Qed.

(** The negative tokens are not ASCII. *)
Lemma isascii_negative (c : Z) : c < 0 -> isascii c = false.
Proof.
  intros Hc. rewrite isascii_range.
  destruct (Z.leb_spec 0 c); [lia | reflexivity].
Qed.

Lemma skip_whitespace_nonspace (c : Z) (inp : string) :
  isspace c = false -> skip_whitespace c inp = (c, inp).
Proof. intros H. destruct inp; simpl; now rewrite H. Qed.

Lemma is_num_char_range (c : Z) :
  is_num_char c = true -> c = 46 \/ 48 <= c <= 57.
Proof.
  unfold is_num_char, isdigit. change (chr ".") with 46. lia.
Qed.

Lemma is_num_char_not_space (c : Z) : is_num_char c = true -> isspace c = false.
Proof. intros H%is_num_char_range. unfold isspace. lia. Qed.

Lemma is_num_char_not_alpha (c : Z) : is_num_char c = true -> isalpha c = false.
Proof.
  intros H%is_num_char_range. unfold isalpha, isupper, islower. lia.
Qed.

(** The loop of a number reads a run of digits and ['.'] to its end: up to
    the first other character, or to the end of the input. *)
Lemma read_number_run (run rest NumStr : string) :
  all_num_chars run = true ->
  is_num_char (fst (getchar rest)) = false ->
  read_number (run ++ rest) NumStr
  = ((NumStr ++ run)%string, fst (getchar rest), snd (getchar rest)).
Proof.
  revert NumStr. induction run as [|a run IH]; intros NumStr Hrun Hrest.
  - rewrite append_empty_r. change (("" ++ rest)%string) with rest.
    destruct rest as [|b rest]; simpl in *; [reflexivity|].
    now rewrite Hrest.
  - simpl in Hrun. apply andb_true_iff in Hrun as [Ha Hrun].
    rewrite append_String. simpl.
    rewrite Ha, char_of_int_chr, IH by assumption.
    now rewrite append_cons_r.
Qed.

Lemma getTok_fuel_unfold (fuel : nat) (s : state) :
  getTok_fuel fuel s
  = getTok_body (match fuel with
                 | S fuel' => getTok_fuel fuel'
                 | O => fun _ => None
                 end) s.
Proof. destruct fuel; reflexivity. Qed.

Lemma skip_whitespace_length (c : Z) (inp : string) :
  (String.length (snd (skip_whitespace c inp)) <= String.length inp)%nat.
Proof.
  revert c. induction inp as [|a inp IH]; intros c; simpl.
  - destruct (isspace c); simpl; lia.
  - destruct (isspace c); simpl; [|lia]. specialize (IH (chr a)). lia.
Qed.

Lemma skip_comment_length (inp : string) :
  fst (skip_comment inp) <> EOF ->
  (String.length (snd (skip_comment inp)) < String.length inp)%nat.
Proof.
  induction inp as [|a inp IH]; simpl; [intros H; now contradiction H|].
  destruct ((chr a =? 10) || (chr a =? 13)); simpl; [lia|].
  intros H. specialize (IH H). lia.
Qed.

(** The length of the input is fuel enough for [getTok]: the lexer always
    produces a token. *)
Lemma getTok_fuel_total (fuel : nat) (s : state) :
  (String.length (stdin s) <= fuel)%nat -> is_Some (getTok_fuel fuel s).
Proof.
  revert s. induction fuel as [|fuel IH]; intros s Hlen;
    rewrite getTok_fuel_unfold; unfold getTok_body;
    pose proof (skip_whitespace_length (LastChar s) (stdin s)) as Hws;
    destruct (skip_whitespace (LastChar s) (stdin s)) as [c inp];
    simpl in Hws.
  all: destruct (isalpha c);
    [ destruct (read_identifier _ _) as [[id c'] inp'];
      repeat (case_match; try done); eauto |].
  all: destruct (is_num_char c);
    [ destruct (read_number _ _) as [[n c'] inp']; eauto |].
  all: destruct (c =? chr "#");
    [ pose proof (skip_comment_length inp) as Hc;
      destruct (skip_comment inp) as [c' inp']; simpl in Hc;
      destruct (Z.eqb_spec c' EOF) as [->|Hne]; simpl
    | destruct (c =? EOF); [eauto | destruct (getchar inp); eauto] ].
  all: try (eexists; reflexivity).
  - specialize (Hc Hne). lia.
  - apply IH. simpl. specialize (Hc Hne). lia.
Qed.

Lemma getTok_spec (s : state) :
  getTok_fuel (String.length (stdin s)) s = Some (getTok s).
Proof.
  unfold getTok.
  destruct (getTok_fuel_total (String.length (stdin s)) s) as [r Hr];
    [lia | now rewrite Hr].
Qed.

(** Lexing a number: the lexer reads the whole run of digits and ['.'] at
    its cursor and returns one [tok_number], with [NumVal] the conversion of
    the whole run; the cursor is left on the character after the run. *)
Lemma getTok_number (s : state) (run rest : string) :
  is_num_char (LastChar s) = true ->
  stdin s = (run ++ rest)%string ->
  all_num_chars run = true ->
  is_num_char (fst (getchar rest)) = false ->
  getTok s
  = (tok_number,
     set_NumVal (set_lexer s (fst (getchar rest)) (snd (getchar rest)))
       (strtod (String (char_of_int (LastChar s)) run))).
Proof.
  intros Hc Hin Hrun Hrest.
  pose proof (getTok_spec s) as Hs.
  rewrite getTok_fuel_unfold in Hs. unfold getTok_body in Hs.
  rewrite (skip_whitespace_nonspace _ _ (is_num_char_not_space _ Hc)) in Hs.
  rewrite (is_num_char_not_alpha _ Hc), Hc, Hin in Hs.
  rewrite (read_number_run _ _ _ Hrun Hrest) in Hs. simpl in Hs.
  now injection Hs as <-.
Qed.

End Lexer.

(** * Fuel *)

Section Fuel.

Variable prog : program.

Lemma ParsePrototype_loop_mono (n m : nat) (s : state) (ArgNames : list string)
    (r : list string * state) :
  (n <= m)%nat ->
  ParsePrototype_loop n s ArgNames = Some r ->
  ParsePrototype_loop m s ArgNames = Some r.
Proof.
  revert m s ArgNames. induction n as [|n IH]; intros m s ArgNames Hle H;
    [discriminate|].
  destruct m as [|m]; [lia|]. assert (Hle' : (n <= m)%nat) by lia.
  specialize (IH m). repeat fuel_step.
Qed.

Lemma ParsePrototype_mono (n m : nat) (s : state)
    (r : option PrototypeAST * state) :
  (n <= m)%nat ->
  ParsePrototype n s = Some r -> ParsePrototype m s = Some r.
Proof.
  intros Hle H. unfold ParsePrototype in *.
  pose proof (fun s a r => ParsePrototype_loop_mono n m s a r Hle) as IH.
  repeat fuel_step.
Qed.

Lemma ParseExtern_mono (n m : nat) (s : state)
    (r : option PrototypeAST * state) :
  (n <= m)%nat -> ParseExtern n s = Some r -> ParseExtern m s = Some r.
Proof. unfold ParseExtern. apply ParsePrototype_mono. Qed.

Lemma Parse_mono_all (n : nat) : forall m : nat, (n <= m)%nat ->
  (forall s r, ParsePrimary prog n s = Some r -> ParsePrimary prog m s = Some r)
  /\ (forall s r,
        ParseParenExpr prog n s = Some r -> ParseParenExpr prog m s = Some r)
  /\ (forall s r,
        ParseIdentifierExpr prog n s = Some r ->
        ParseIdentifierExpr prog m s = Some r)
  /\ (forall s Args r,
        ParseIdentifierExpr_loop prog n s Args = Some r ->
        ParseIdentifierExpr_loop prog m s Args = Some r)
  /\ (forall ExprPrec LHS s r,
        ParseBinOpRHS prog n ExprPrec LHS s = Some r ->
        ParseBinOpRHS prog m ExprPrec LHS s = Some r)
  /\ (forall s r,
        ParseExpression prog n s = Some r -> ParseExpression prog m s = Some r).
Proof.
  induction n as [|n IH]; intros m Hle.
  - repeat split; intros; discriminate.
  - destruct m as [|m]; [lia|].
    destruct (IH m ltac:(lia)) as (IH1 & IH2 & IH3 & IH4 & IH5 & IH6).
    clear IH.
    repeat split; intros; repeat fuel_step.
Qed.

Lemma ParseExpression_mono (n m : nat) (s : state)
    (r : option ExprAST * state) :
  (n <= m)%nat ->
  ParseExpression prog n s = Some r -> ParseExpression prog m s = Some r.
Proof. intros Hle. apply (Parse_mono_all n m Hle). Qed.

Lemma ParseDefinition_mono (n m : nat) (s : state)
    (r : option FunctionAST * state) :
  (n <= m)%nat ->
  ParseDefinition prog n s = Some r -> ParseDefinition prog m s = Some r.
Proof.
  intros Hle H. unfold ParseDefinition in *.
  pose proof (fun s r => ParsePrototype_mono n m s r Hle) as IH1.
  pose proof (fun s r => ParseExpression_mono n m s r Hle) as IH2.
  repeat fuel_step.
Qed.

Lemma ParseTopLevelExpr_mono (n m : nat) (s : state)
    (r : option FunctionAST * state) :
  (n <= m)%nat ->
  ParseTopLevelExpr prog n s = Some r -> ParseTopLevelExpr prog m s = Some r.
Proof.
  intros Hle H. unfold ParseTopLevelExpr in *.
  pose proof (fun s r => ParseExpression_mono n m s r Hle) as IH.
  repeat fuel_step.
Qed.

End Fuel.

Lemma MainLoop_mono (n : nat) : forall (m : nat) (s r : state),
  (n <= m)%nat -> MainLoop n s = Some r -> MainLoop m s = Some r.
Proof.
  induction n as [|n IH]; intros m s r Hle H; [discriminate|].
  destruct m as [|m]; [lia|]. assert (Hle' : (n <= m)%nat) by lia.
  pose proof (fun s r => ParseDefinition_mono main_cpp n m s r Hle') as IHd.
  pose proof (fun s r => ParseTopLevelExpr_mono main_cpp n m s r Hle') as IHt.
  specialize (IH m).
  simpl in H |- *.
  destruct (MainLoop_switch (CurTok s));
    unfold HandleDefinition, HandleTopLevelExpression in *;
    simpl in H |- *; eauto.
  - destruct (ParseDefinition main_cpp n _) as [[F s1]|] eqn:E; simpl in H;
      [|discriminate H].
    rewrite (IHd _ _ E). simpl in *. destruct F; simpl in *; eauto.
  - destruct (ParseTopLevelExpr main_cpp n _) as [[F s1]|] eqn:E; simpl in H;
      [|discriminate H].
    rewrite (IHt _ _ E). simpl in *. destruct F; simpl in *; eauto.
Qed.

(** * The precedence table *)

Section Table.

Lemma map_subscript_lookup (m : gmap ascii Z) (k k' : ascii) :
  snd (map_subscript m k) !! k' = m !! k'
  \/ (k' = k /\ m !! k' = None /\ snd (map_subscript m k) !! k' = Some 0).
Proof.
  unfold map_subscript. destruct (m !! k) as [v|] eqn:Hk; simpl; [now left|].
  destruct (decide (k = k')) as [<-|Hne].
  - right. now rewrite lookup_insert_eq.
  - left. now rewrite lookup_insert_ne.
Qed.

Lemma map_subscript_value (m : gmap ascii Z) (k : ascii) :
  fst (map_subscript m k) = default 0 (m !! k).
Proof. unfold map_subscript. now destruct (m !! k). Qed.

Lemma zero_extends_refl (m : gmap ascii Z) : zero_extends m m.
Proof. intros k. now left. Qed.

Lemma zero_extends_trans (m1 m2 m3 : gmap ascii Z) :
  zero_extends m1 m2 -> zero_extends m2 m3 -> zero_extends m1 m3.
Proof.
  intros H12 H23 k. destruct (H12 k) as [E12|[E1 E2]], (H23 k) as [E23|[E2' E3]].
  - left. congruence.
  - right. split; congruence.
  - right. split; congruence.
  - congruence.
Qed.

(** A zero entry is as good as no entry for a precedence lookup. *)
Lemma zero_extends_default (m m' : gmap ascii Z) (k : ascii) :
  zero_extends m m' ->
  (0 <? default 0 (m' !! k)) = (0 <? default 0 (m !! k))
  /\ (default 0 (m' !! k) <=? 0) = (default 0 (m !! k) <=? 0)
  /\ (0 < default 0 (m !! k) -> m' !! k = m !! k).
Proof.
  intros H. destruct (H k) as [->|[-> ->]]; simpl; auto.
  repeat split; auto. lia.
Qed.

Lemma GetTokPrecedence_value (prog : program) (s : state) :
  fst (GetTokPrecedence prog s)
  = if precedence_guard prog (CurTok s) then -1
    else
      match BinopPrecedence s !! char_of_int (CurTok s) with
      | Some v => if 0 <? v then v else -1
      | None => -1
      end.
Proof.
  unfold GetTokPrecedence, map_subscript.
  destruct (precedence_guard prog (CurTok s)); [reflexivity|].
  destruct (BinopPrecedence s !! char_of_int (CurTok s)) as [v|]; simpl;
    [|reflexivity].
  destruct (Z.leb_spec v 0), (Z.ltb_spec 0 v); simpl; try reflexivity; lia.
Qed.

Lemma GetTokPrecedence_state (prog : program) (s : state) :
  snd (GetTokPrecedence prog s)
  = if precedence_guard prog (CurTok s) then s
    else set_BinopPrecedence s
           (snd (map_subscript (BinopPrecedence s) (char_of_int (CurTok s)))).
Proof.
  unfold GetTokPrecedence.
  destruct (precedence_guard prog (CurTok s)); [reflexivity|].
  destruct (map_subscript _ _) as [v m]. simpl.
  now destruct (v <=? 0).
Qed.

Lemma GetTokPrecedence_zero_extends (prog : program) (s : state) :
  zero_extends (BinopPrecedence s)
    (BinopPrecedence (snd (GetTokPrecedence prog s))).
Proof.
  rewrite GetTokPrecedence_state.
  destruct (precedence_guard prog (CurTok s)); [apply zero_extends_refl|].
  intros k. simpl.
  destruct (map_subscript_lookup (BinopPrecedence s)
              (char_of_int (CurTok s)) k) as [H|(_ & H1 & H2)]; auto.
Qed.

(** The lexer does not touch the table, and prints nothing. *)
Lemma getTok_fuel_frame (fuel : nat) : forall (s s' : state) (t : Z),
  getTok_fuel fuel s = Some (t, s') ->
  BinopPrecedence s' = BinopPrecedence s /\ stderr s' = stderr s
  /\ CurTok s' = CurTok s.
Proof.
  induction fuel as [|fuel IH]; intros s s' t; rewrite getTok_fuel_unfold;
    unfold getTok_body; intros H;
    repeat (case_match; simplify_eq; simpl in *; auto).
  all: match goal with
       | H : getTok_fuel _ _ = Some _ |- _ => apply IH in H; simpl in H; auto
       end.
Qed.

Lemma getNextToken_table (s : state) :
  BinopPrecedence (getNextToken s) = BinopPrecedence s.
Proof.
  unfold getNextToken. pose proof (getTok_spec s) as H.
  destruct (getTok s) as [t s']. apply getTok_fuel_frame in H. simpl. tauto.
Qed.

Lemma getNextToken_stderr (s : state) :
  stderr (getNextToken s) = stderr s.
Proof.
  unfold getNextToken. pose proof (getTok_spec s) as H.
  destruct (getTok s) as [t s']. apply getTok_fuel_frame in H. simpl. tauto.
Qed.

Lemma keeps_table_refl (s : state) : keeps_table s s.
Proof. apply zero_extends_refl. Qed.

Lemma keeps_table_getNextToken (s0 s : state) :
  keeps_table s0 s -> keeps_table s0 (getNextToken s).
Proof. unfold keeps_table. now rewrite getNextToken_table. Qed.

Lemma keeps_table_print (s0 s : state) (o : output) :
  keeps_table s0 s -> keeps_table s0 (print s o).
Proof. exact (fun H => H). Qed.

Lemma keeps_table_GetTokPrecedence (prog : program) (s0 s s' : state) (p : Z) :
  GetTokPrecedence prog s = (p, s') -> keeps_table s0 s -> keeps_table s0 s'.
Proof.
  intros E H. unfold keeps_table.
  eapply zero_extends_trans; [exact H|].
  pose proof (GetTokPrecedence_zero_extends prog s) as H'.
  now rewrite E in H'.
Qed.

Create HintDb table.
Local Hint Resolve keeps_table_refl keeps_table_getNextToken
  keeps_table_print keeps_table_GetTokPrecedence : table.

Variable prog : program.

Lemma ParsePrototype_loop_table (n : nat) :
  forall (s0 s : state) (ArgNames : list string) r s',
  ParsePrototype_loop n s ArgNames = Some (r, s') ->
  keeps_table s0 s -> keeps_table s0 s'.
Proof.
  induction n as [|n IH]; intros s0 s ArgNames r s' H Hs; [discriminate|].
  repeat table_step; eauto with table.
Qed.

Lemma ParsePrototype_table (n : nat) (s0 s : state) r s' :
  ParsePrototype n s = Some (r, s') -> keeps_table s0 s -> keeps_table s0 s'.
Proof.
  intros H Hs. unfold ParsePrototype, LogError in H.
  pose proof (ParsePrototype_loop_table n s0) as IH.
  repeat table_step; eauto 10 with table.
Qed.

Lemma Parse_table_all (n : nat) :
  (forall s0 s r s', ParsePrimary prog n s = Some (r, s') ->
     keeps_table s0 s -> keeps_table s0 s')
  /\ (forall s0 s r s', ParseParenExpr prog n s = Some (r, s') ->
        keeps_table s0 s -> keeps_table s0 s')
  /\ (forall s0 s r s', ParseIdentifierExpr prog n s = Some (r, s') ->
        keeps_table s0 s -> keeps_table s0 s')
  /\ (forall s0 s Args r s',
        ParseIdentifierExpr_loop prog n s Args = Some (r, s') ->
        keeps_table s0 s -> keeps_table s0 s')
  /\ (forall s0 ExprPrec LHS s r s',
        ParseBinOpRHS prog n ExprPrec LHS s = Some (r, s') ->
        keeps_table s0 s -> keeps_table s0 s')
  /\ (forall s0 s r s', ParseExpression prog n s = Some (r, s') ->
        keeps_table s0 s -> keeps_table s0 s').
Proof.
  induction n as [|n IH].
  - repeat split; intros; discriminate.
  - destruct IH as (IH1 & IH2 & IH3 & IH4 & IH5 & IH6).
    unfold ParseNumberExpr, LogError in *.
    repeat split; intros; repeat table_step; eauto 12 with table.
Qed.

Lemma ParseExpression_table (n : nat) (s0 s : state) r s' :
  ParseExpression prog n s = Some (r, s') ->
  keeps_table s0 s -> keeps_table s0 s'.
Proof. apply (Parse_table_all n). Qed.

Lemma ParseExtern_table (n : nat) (s0 s : state) r s' :
  ParseExtern n s = Some (r, s') -> keeps_table s0 s -> keeps_table s0 s'.
Proof.
  unfold ParseExtern. intros H Hs.
  eapply ParsePrototype_table; eauto with table.
Qed.

Lemma ParseDefinition_table (n : nat) (s0 s : state) r s' :
  ParseDefinition prog n s = Some (r, s') ->
  keeps_table s0 s -> keeps_table s0 s'.
Proof.
  intros H Hs. unfold ParseDefinition in H.
  pose proof (ParsePrototype_table n s0) as IH1.
  pose proof (ParseExpression_table n s0) as IH2.
  repeat table_step; eauto 10 with table.
Qed.

Lemma ParseTopLevelExpr_table (n : nat) (s0 s : state) r s' :
  ParseTopLevelExpr prog n s = Some (r, s') ->
  keeps_table s0 s -> keeps_table s0 s'.
Proof.
  intros H Hs. unfold ParseTopLevelExpr in H.
  pose proof (ParseExpression_table n s0) as IH.
  repeat table_step; eauto 10 with table.
Qed.

(** Zero entries do not change any precedence. *)
Lemma keeps_table_precedence (s0 s : state) (tok : Z) :
  keeps_table s0 s ->
  fst (GetTokPrecedence prog (set_CurTok s tok))
  = fst (GetTokPrecedence prog (set_CurTok s0 tok)).
Proof.
  intros H. rewrite !GetTokPrecedence_value. simpl.
  destruct (precedence_guard prog tok); [reflexivity|].
  destruct (H (char_of_int tok)) as [->|[-> ->]]; reflexivity.
Qed.

End Table.

Lemma MainLoop_table (n : nat) : forall s0 s s' : state,
  MainLoop n s = Some s' -> keeps_table s0 s -> keeps_table s0 s'.
Proof.
  induction n as [|n IH]; intros s0 s s' H Hs; [discriminate|].
  pose proof (ParseDefinition_table main_cpp n s0) as IHd.
  pose proof (ParseTopLevelExpr_table main_cpp n s0) as IHt.
  pose proof (keeps_table_getNextToken s0) as Hnext.
  pose proof (keeps_table_print s0) as Hprint.
  simpl in H.
  destruct (MainLoop_switch (CurTok s));
    unfold HandleDefinition, HandleTopLevelExpression in H;
    simpl in H.
  - simplify_eq. eauto.
  - eauto.
  - destruct (ParseDefinition main_cpp n _) as [[F s1]|] eqn:E; simpl in H;
      [|discriminate H].
    destruct F; simpl in H; eauto 10.
  - destruct (ParseTopLevelExpr main_cpp n _) as [[F s1]|] eqn:E; simpl in H;
      [|discriminate H].
    destruct F; simpl in H; eauto 10.
Qed.

(** * Precedence lookup *)

Section Precedence.

Lemma chr_char_of_int_mod (c : Z) : chr (char_of_int c) = c mod 256.
Proof.
  unfold chr, char_of_int.
  pose proof (Z.mod_pos_bound c 256 ltac:(lia)) as Hm.
  rewrite N_ascii_embedding by lia. lia.
Qed.

Lemma chr_char_of_int (c : Z) : 0 <= c < 256 -> chr (char_of_int c) = c.
Proof. intros Hc. rewrite chr_char_of_int_mod. now apply Z.mod_small. Qed.

Lemma start_table (input : string) :
  BinopPrecedence (start input) = default_table.
Proof. unfold start. now rewrite getNextToken_table. Qed.

(** The operators of the default table are ASCII characters with a positive
    precedence. *)
Lemma default_table_lookup (k : ascii) (v : Z) :
  default_table !! k = Some v -> chr k < 128 /\ 0 < v.
Proof.
  unfold default_table. intros H.
  repeat (apply lookup_insert_Some in H as [[<- <-]|[_ H]];
          [vm_compute; split; reflexivity|]).
  now rewrite lookup_empty in H.
Qed.

(** [src/main.cpp]: an ASCII token never reaches the table. *)
Lemma GetTokPrecedence_main_cpp_ascii (s : state) :
  isascii (CurTok s) = true -> GetTokPrecedence main_cpp s = (-1, s).
Proof. intros H. unfold GetTokPrecedence. simpl. now rewrite H. Qed.

(** [src/main.cpp], default table: [-1] for every token of the lexer. *)
Lemma GetTokPrecedence_main_cpp_default (s : state) :
  is_token (CurTok s) -> BinopPrecedence s = default_table ->
  fst (GetTokPrecedence main_cpp s) = -1.
Proof.
  intros Htok Htab. rewrite GetTokPrecedence_value. simpl.
  destruct (isascii (CurTok s)) eqn:Ha; [reflexivity|].
  rewrite Htab.
  destruct (default_table !! char_of_int (CurTok s)) as [v|] eqn:Hk;
    [|reflexivity].
  exfalso. apply default_table_lookup in Hk as [Hk _].
  rewrite isascii_range in Ha. unfold is_token in Htok.
  rewrite chr_char_of_int_mod in Hk.
  assert (Hrange : CurTok s < 0 \/ 127 < CurTok s) by lia. clear Ha.
  Z.to_euclidean_division_equations. lia.
Qed.

(** [part_001]: the precedence is read from the table for the ASCII
    tokens, and is [-1] for the others. *)
Lemma GetTokPrecedence_part_001_value (s : state) :
  fst (GetTokPrecedence part_001 s)
  = if isascii (CurTok s)
    then registered_precedence (BinopPrecedence s) (CurTok s)
    else -1.
Proof.
  rewrite GetTokPrecedence_value. simpl. unfold registered_precedence.
  rewrite isascii_range.
  destruct (Z.leb_spec 0 (CurTok s)), (Z.leb_spec (CurTok s) 127),
    (Z.ltb_spec (CurTok s) 256); simpl; try reflexivity; lia.
Qed.

(** [part_001] computes the registered precedence of every token,
    as long as the operators of the table are ASCII characters. *)
Lemma GetTokPrecedence_part_001_registered (s : state) :
  (forall k v, BinopPrecedence s !! k = Some v -> 0 < v -> chr k < 128) ->
  fst (GetTokPrecedence part_001 s)
  = registered_precedence (BinopPrecedence s) (CurTok s).
Proof.
  intros Hkeys. rewrite GetTokPrecedence_part_001_value.
  destruct (isascii (CurTok s)) eqn:Ha; [reflexivity|].
  unfold registered_precedence.
  destruct ((0 <=? CurTok s) && (CurTok s <? 256)) eqn:Hr; [|reflexivity].
  destruct (BinopPrecedence s !! char_of_int (CurTok s)) as [v|] eqn:Hk;
    [|reflexivity].
  destruct (Z.ltb_spec 0 v) as [Hv|Hv]; [|reflexivity].
  exfalso. specialize (Hkeys _ _ Hk Hv).
  rewrite chr_char_of_int in Hkeys by lia.
  rewrite isascii_range in Ha. lia.
Qed.

(** [part_001], default table: the four operators. *)
Lemma GetTokPrecedence_part_001_default_operators :
  fst (GetTokPrecedence part_001 (start "+")) = 20
  /\ fst (GetTokPrecedence part_001 (start "-")) = 20
  /\ fst (GetTokPrecedence part_001 (start "*")) = 40
  /\ fst (GetTokPrecedence part_001 (start "<")) = 10
  /\ fst (GetTokPrecedence part_001 (start ")")) = -1
  /\ fst (GetTokPrecedence part_001 (start "def")) = -1
  /\ fst (GetTokPrecedence part_001 (start "")) = -1.
Proof. repeat split; vm_compute; reflexivity. Qed.

(** C1 (as [src/main.cpp] has it).  With the default table and the current
    token ['+'], ['-'], ['*'] or ['<'], [GetTokPrecedence] of [src/main.cpp]
    returns [-1], where the table registers 20, 20, 40 and 10: the guard
    [isascii(CurTok)] returns before the table is read. *)
Theorem GetTokPrecedence_main_cpp_default_operators :
  (CurTok (start "+") = chr "+"
   /\ BinopPrecedence (start "+") !! "+"%char = Some 20
   /\ fst (GetTokPrecedence main_cpp (start "+")) = -1)
  /\ (CurTok (start "-") = chr "-"
      /\ BinopPrecedence (start "-") !! "-"%char = Some 20
      /\ fst (GetTokPrecedence main_cpp (start "-")) = -1)
  /\ (CurTok (start "*") = chr "*"
      /\ BinopPrecedence (start "*") !! "*"%char = Some 40
      /\ fst (GetTokPrecedence main_cpp (start "*")) = -1)
  /\ (CurTok (start "<") = chr "<"
      /\ BinopPrecedence (start "<") !! "<"%char = Some 10
      /\ fst (GetTokPrecedence main_cpp (start "<")) = -1).
Proof. repeat split; vm_compute; reflexivity. Qed.

(** C5 (as stated, refuted).  A precedence lookup adds an entry to the
    table: in [part_001], with the current token [')'], which the
    default table does not have, the table has the entry [')' -> 0] after
    [GetTokPrecedence]; in [src/main.cpp] the same happens at the end of the
    input, for the character [(char)tok_eof]. *)
Lemma GetTokPrecedence_adds_entry :
  (CurTok (start ")") = chr ")"
   /\ BinopPrecedence (start ")") !! ")"%char = None
   /\ BinopPrecedence (snd (GetTokPrecedence part_001 (start ")")))
        !! ")"%char = Some 0)
  /\ (CurTok (start "") = tok_eof
      /\ BinopPrecedence (start "") !! char_of_int tok_eof = None
      /\ BinopPrecedence (snd (GetTokPrecedence main_cpp (start "")))
           !! char_of_int tok_eof = Some 0).
Proof. repeat split; vm_compute; reflexivity. Qed.

(** [ParseBinOpRHS] returns a tree only from its first test, just after a
    precedence lookup on the token it stops on: when the lookup reached the
    table, the character of that token has an entry. *)
Lemma ParseBinOpRHS_stop (prog : program) (fuel : nat) :
  forall (ExprPrec : Z) (LHS : ExprAST) (s : state) (e : ExprAST) (s' : state),
  ParseBinOpRHS prog fuel ExprPrec LHS s = Some (Some e, s') ->
  precedence_guard prog (CurTok s') = false ->
  is_Some (BinopPrecedence s' !! char_of_int (CurTok s')).
Proof.
  induction fuel as [|fuel IH]; intros ExprPrec LHS s e s' H Hg;
    [discriminate|].
  simpl in H.
  pose proof (GetTokPrecedence_state prog s) as Hs.
  destruct (GetTokPrecedence prog s) as [p s1]. simpl in Hs.
  destruct (p <? ExprPrec).
  - simplify_eq.
    destruct (precedence_guard prog (CurTok s)) eqn:Hg'; [simpl in Hg; congruence|].
    simpl. unfold map_subscript.
    destruct (BinopPrecedence s !! char_of_int (CurTok s)) as [v|] eqn:Hk;
      simpl; [now rewrite Hk | now rewrite lookup_insert_eq].
  - destruct (ParsePrimary prog fuel _) as [[[R|] s2]|]; simpl in H;
      [|discriminate|discriminate].
    destruct (GetTokPrecedence prog s2) as [p2 s3].
    destruct (if p <? p2 then _ else _) as [[[R2|] s4]|]; simpl in H;
      [|discriminate|discriminate].
    eapply IH; eassumption.
Qed.

(** C5 (amended).  Parsing never removes an entry of the table and never
    changes the value of one.  [GetTokPrecedence] leaves every variable of
    the program but the table as it is; the table is unchanged when the
    guard returns at once or the character [c] of the current token has an
    entry, and is the table with the entry [c -> 0] added when the lookup
    reaches the table and [c] has no entry.  So an expression that was
    parsed, and stopped on a token whose lookup reached the table, has left
    an entry for that token, [c -> 0] if there was none.  [getNextToken]
    leaves the table as it is; from the start to the end of every parsing
    function, and of [MainLoop] of [src/main.cpp], the table only gains zero
    entries; and zero entries change no precedence that [GetTokPrecedence]
    returns. *)
Theorem BinopPrecedence_only_gains_zero_entries (prog : program) :
  (forall s : state,
     snd (GetTokPrecedence prog s)
     = set_BinopPrecedence s (BinopPrecedence (snd (GetTokPrecedence prog s)))
     /\ BinopPrecedence (snd (GetTokPrecedence prog s))
        = if precedence_guard prog (CurTok s) then BinopPrecedence s
          else
            match BinopPrecedence s !! char_of_int (CurTok s) with
            | Some _ => BinopPrecedence s
            | None => <[char_of_int (CurTok s) := 0]> (BinopPrecedence s)
            end)
  /\ (forall s : state,
        precedence_guard prog (CurTok s) = false ->
        BinopPrecedence s !! char_of_int (CurTok s) = None ->
        BinopPrecedence (snd (GetTokPrecedence prog s))
          !! char_of_int (CurTok s) = Some 0
        /\ fst (GetTokPrecedence prog s) = -1)
  /\ (forall fuel s e s',
        ParseExpression prog fuel s = Some (Some e, s') ->
        precedence_guard prog (CurTok s') = false ->
        BinopPrecedence s !! char_of_int (CurTok s') = None ->
        BinopPrecedence s' !! char_of_int (CurTok s') = Some 0)
  /\ (forall s : state, BinopPrecedence (getNextToken s) = BinopPrecedence s)
  /\ (forall fuel s r s',
        ParseExpression prog fuel s = Some (r, s') ->
        zero_extends (BinopPrecedence s) (BinopPrecedence s'))
  /\ (forall fuel s r s',
        ParseDefinition prog fuel s = Some (r, s') ->
        zero_extends (BinopPrecedence s) (BinopPrecedence s'))
  /\ (forall fuel s r s',
        ParseExtern fuel s = Some (r, s') ->
        zero_extends (BinopPrecedence s) (BinopPrecedence s'))
  /\ (forall fuel s r s',
        ParseTopLevelExpr prog fuel s = Some (r, s') ->
        zero_extends (BinopPrecedence s) (BinopPrecedence s'))
  /\ (forall fuel s s',
        MainLoop fuel s = Some s' ->
        zero_extends (BinopPrecedence s) (BinopPrecedence s'))
  /\ (forall (s s' : state) (tok : Z),
        zero_extends (BinopPrecedence s) (BinopPrecedence s') ->
        fst (GetTokPrecedence prog (set_CurTok s' tok))
        = fst (GetTokPrecedence prog (set_CurTok s tok))).
Proof.
  assert (Htable : forall s : state,
            BinopPrecedence (snd (GetTokPrecedence prog s))
            = if precedence_guard prog (CurTok s) then BinopPrecedence s
              else
                match BinopPrecedence s !! char_of_int (CurTok s) with
                | Some _ => BinopPrecedence s
                | None => <[char_of_int (CurTok s) := 0]> (BinopPrecedence s)
                end).
  { intros s. rewrite GetTokPrecedence_state.
    destruct (precedence_guard prog (CurTok s)); [reflexivity|].
    simpl. unfold map_subscript.
    now destruct (BinopPrecedence s !! char_of_int (CurTok s)). }
  split; [intros s; split; [|apply Htable]|].
  { rewrite GetTokPrecedence_state.
    destruct (precedence_guard prog (CurTok s)); [now destruct s | reflexivity]. }
  split.
  { intros s Hg Hk. split.
    - rewrite Htable, Hg, Hk. apply lookup_insert_eq.
    - rewrite GetTokPrecedence_value. now rewrite Hg, Hk. }
  split.
  { intros fuel s e s' H Hg Hk.
    assert (Hz : zero_extends (BinopPrecedence s) (BinopPrecedence s'))
      by (eapply ParseExpression_table; [eassumption | apply keeps_table_refl]).
    assert (Hs : is_Some (BinopPrecedence s' !! char_of_int (CurTok s'))).
    { destruct fuel as [|fuel]; [discriminate|]. simpl in H.
      destruct (ParsePrimary prog fuel s) as [[[LHS|] s1]|]; simpl in H;
        [|discriminate|discriminate].
      eapply ParseBinOpRHS_stop; eassumption. }
    destruct (Hz (char_of_int (CurTok s'))) as [He|[_ He]]; [|exact He].
    rewrite He, Hk in Hs. now destruct Hs. }
  split; [exact getNextToken_table|].
  repeat split; intros.
  + eapply ParseExpression_table; [eassumption | apply keeps_table_refl].
  + eapply ParseDefinition_table; [eassumption | apply keeps_table_refl].
  + eapply ParseExtern_table; [eassumption | apply keeps_table_refl].
  + eapply ParseTopLevelExpr_table; [eassumption | apply keeps_table_refl].
  + eapply MainLoop_table; [eassumption | apply keeps_table_refl].
  + now apply keeps_table_precedence.
Qed.

(** The amended C5 at work: [part_001] parses the [1] of ["1)"] and stops
    on [')'], which the default table does not have; the table then has
    [')' -> 0]. *)
Lemma BinopPrecedence_only_gains_zero_entries_witness :
  match ParseExpression part_001 3 (start "1)") with
  | Some (Some e, s') => BinopPrecedence s' !! ")"%char = Some 0
  | _ => False
  end.
Proof.
  destruct (ParseExpression part_001 3 (start "1)")) as [[[e|] s']|] eqn:E;
    [|vm_compute in E; discriminate E|vm_compute in E; discriminate E].
  assert (Ht : CurTok s' = chr ")").
  { pose proof (f_equal (fun r => CurTok <$> (snd <$> r)) E) as Ht.
    vm_compute in Ht. injection Ht as Ht. symmetry. exact Ht. }
  pose proof (proj1 (proj2 (proj2
                (BinopPrecedence_only_gains_zero_entries part_001)))
                3%nat (start "1)") e s' E) as H.
  rewrite Ht in H. apply H; vm_compute; reflexivity.
Defined.

End Precedence.

(** * The tokens of the lexer, and [src/main.cpp] on them *)

Section Tokens.

Lemma skip_whitespace_range (inp : string) : forall c : Z,
  char_or_EOF c -> char_or_EOF (fst (skip_whitespace c inp)).
Proof.
  unfold char_or_EOF, EOF.
  induction inp as [|a inp IH]; intros c Hc; simpl;
    destruct (isspace c); simpl; unfold EOF; try lia.
  apply IH. pose proof (chr_range a). lia.
Qed.

Lemma read_identifier_range (inp : string) : forall id : string,
  char_or_EOF (snd (fst (read_identifier inp id))).
Proof.
  unfold char_or_EOF, EOF.
  induction inp as [|a inp IH]; intros id; simpl; [unfold EOF; lia|].
  destruct (isalnum (chr a)); [apply IH|]. simpl.
  pose proof (chr_range a). lia.
Qed.

Lemma read_number_range (inp : string) : forall NumStr : string,
  char_or_EOF (snd (fst (read_number inp NumStr))).
Proof.
  unfold char_or_EOF, EOF.
  induction inp as [|a inp IH]; intros NumStr; simpl; [unfold EOF; lia|].
  destruct (is_num_char (chr a)); [apply IH|]. simpl.
  pose proof (chr_range a). lia.
Qed.

Lemma skip_comment_range (inp : string) :
  char_or_EOF (fst (skip_comment inp)).
Proof.
  unfold char_or_EOF, EOF.
  induction inp as [|a inp IH]; simpl; [unfold EOF; lia|].
  destruct ((chr a =? 10) || (chr a =? 13)); [|apply IH]. simpl.
  pose proof (chr_range a). lia.
Qed.

Lemma getchar_range (inp : string) : char_or_EOF (fst (getchar inp)).
Proof.
  unfold char_or_EOF. destruct inp as [|a inp]; simpl; [unfold EOF; lia|].
  pose proof (chr_range a). lia.
Qed.

(** [getTok] returns one of the five negative tokens or a character, and
    leaves a character or [EOF] in [LastChar]. *)
Lemma getTok_fuel_range (fuel : nat) : forall (s s' : state) (t : Z),
  char_or_EOF (LastChar s) ->
  getTok_fuel fuel s = Some (t, s') ->
  is_token t /\ char_or_EOF (LastChar s').
Proof.
  induction fuel as [|fuel IH]; intros s s' t Hs; rewrite getTok_fuel_unfold;
    unfold getTok_body;
    pose proof (skip_whitespace_range (stdin s) _ Hs) as Hws;
    destruct (skip_whitespace (LastChar s) (stdin s)) as [c inp];
    simpl in Hws.
  all: destruct (isalpha c);
    [ pose proof (read_identifier_range inp (String (char_of_int c) "")) as Hi;
      destruct (read_identifier _ _) as [[id c'] inp']; simpl in Hi;
      intros H; repeat case_match; simplify_eq; simpl;
      unfold is_token, char_or_EOF, tok_def, tok_extern, tok_identifier in *;
      lia |].
  all: destruct (is_num_char c);
    [ pose proof (read_number_range inp (String (char_of_int c) "")) as Hn;
      destruct (read_number _ _) as [[n c'] inp']; simpl in Hn;
      intros H; simplify_eq; simpl;
      unfold is_token, char_or_EOF, tok_number in *; lia |].
  all: destruct (c =? chr "#");
    [ pose proof (skip_comment_range inp) as Hc;
      destruct (skip_comment inp) as [c' inp']; simpl in Hc;
      destruct (Z.eqb_spec c' EOF) as [->|Hne]; simpl
    | destruct (Z.eqb_spec c EOF) as [->|Hne];
      [ | pose proof (getchar_range inp) as Hg;
          destruct (getchar inp) as [c' inp']; simpl in Hg ] ].
  all: intros H; simplify_eq; simpl;
    try (unfold is_token, char_or_EOF, tok_eof, EOF in *; lia).
  apply (IH (set_lexer s c' inp') _ _ Hc H).
Qed.

Lemma getNextToken_range (s : state) :
  char_or_EOF (LastChar s) ->
  is_token (CurTok (getNextToken s))
  /\ char_or_EOF (LastChar (getNextToken s)).
Proof.
  intros Hs. unfold getNextToken. pose proof (getTok_spec s) as H.
  destruct (getTok s) as [t s']. now apply getTok_fuel_range in H.
Qed.

Lemma advance_range (n : nat) : forall s : state,
  char_or_EOF (LastChar s) -> is_token (CurTok s) ->
  is_token (CurTok (advance n s)) /\ char_or_EOF (LastChar (advance n s)).
Proof.
  induction n as [|n IH]; intros s Hc Ht; [now split|].
  destruct (getNextToken_range s Hc) as [Ht' Hc']. now apply IH.
Qed.

Lemma start_range (input : string) :
  is_token (CurTok (start input)) /\ char_or_EOF (LastChar (start input)).
Proof.
  unfold start. apply getNextToken_range. unfold char_or_EOF. simpl.
  change (chr " ") with 32. lia.
Qed.

(** [src/main.cpp]: as long as the table is the default one, possibly with
    more zero entries, every token has the precedence [-1]. *)
Lemma GetTokPrecedence_main_cpp_zero_extends (s : state) :
  is_token (CurTok s) ->
  zero_extends default_table (BinopPrecedence s) ->
  fst (GetTokPrecedence main_cpp s) = -1.
Proof.
  intros Ht Hz.
  pose proof (keeps_table_precedence main_cpp
                (set_BinopPrecedence s default_table) s (CurTok s) Hz) as H.
  replace (set_CurTok s (CurTok s)) with s in H by now destruct s.
  rewrite H. now apply GetTokPrecedence_main_cpp_default.
Qed.

(** So [ParseBinOpRHS] of [src/main.cpp] returns its left-hand side at once
    on every token: no binary operator is ever parsed. *)
Lemma ParseBinOpRHS_main_cpp_default (fuel : nat) (ExprPrec : Z)
    (LHS : ExprAST) (s : state) :
  is_token (CurTok s) ->
  zero_extends default_table (BinopPrecedence s) ->
  0 <= ExprPrec ->
  ParseBinOpRHS main_cpp (S fuel) ExprPrec LHS s
  = Some (Some LHS, snd (GetTokPrecedence main_cpp s)).
Proof.
  intros Ht Hz Hp. simpl.
  pose proof (GetTokPrecedence_main_cpp_zero_extends s Ht Hz) as H.
  destruct (GetTokPrecedence main_cpp s) as [p s']. simpl in *. subst p.
  destruct (Z.ltb_spec (-1) ExprPrec); [reflexivity | lia].
Qed.

(** Whatever the input and however many tokens were read, the precedence
    [GetTokPrecedence] of [src/main.cpp] returns is [-1]. *)
Lemma GetTokPrecedence_main_cpp_any_input (input : string) (n : nat) :
  fst (GetTokPrecedence main_cpp (advance n (start input))) = -1.
Proof.
  destruct (start_range input) as [Ht Hc].
  apply GetTokPrecedence_main_cpp_default.
  - now apply advance_range.
  - pose proof (start_table input) as Htab. revert Htab.
    generalize (start input). induction n as [|n IH]; intros s Htab; [exact Htab|].
    simpl. apply IH. now rewrite getNextToken_table.
Qed.

End Tokens.

(** * Parsing expressions *)

Section Expressions.

Lemma ParseExpression_fuel_agree (prog : program) (n m : nat) (s : state)
    (r r' : option ExprAST * state) :
  ParseExpression prog n s = Some r -> ParseExpression prog m s = Some r' ->
  r = r'.
Proof.
  intros Hn Hm. destruct (Nat.le_ge_cases n m) as [Hle|Hle].
  - apply (ParseExpression_mono prog n m s r Hle) in Hn. congruence.
  - apply (ParseExpression_mono prog m n s r' Hle) in Hm. congruence.
Qed.

(** [part_001] parses the expressions of the specification as the
    specification has them. *)
Lemma ParseExpression_part_001_precedence (k : nat) :
  observe (ParseExpression part_001 (4 + k) (start "1+2*3"))
  = Some (Some (BinaryExprAST "+" (NumberExprAST (double_of_Z 1))
                  (BinaryExprAST "*" (NumberExprAST (double_of_Z 2))
                     (NumberExprAST (double_of_Z 3)))),
          tok_eof, [Ready]).
Proof. settle_by_fuel (ParseExpression_mono part_001). Qed.

Lemma ParseExpression_part_001_left_assoc (k : nat) :
  observe (ParseExpression part_001 (4 + k) (start "1-2-3"))
  = Some (Some (BinaryExprAST "-"
                  (BinaryExprAST "-" (NumberExprAST (double_of_Z 1))
                     (NumberExprAST (double_of_Z 2)))
                  (NumberExprAST (double_of_Z 3))),
          tok_eof, [Ready]).
Proof. settle_by_fuel (ParseExpression_mono part_001). Qed.

Lemma ParseExpression_part_001_parentheses (k : nat) :
  observe (ParseExpression part_001 (6 + k) (start "(1+2)*3"))
  = Some (Some (BinaryExprAST "*"
                  (BinaryExprAST "+" (NumberExprAST (double_of_Z 1))
                     (NumberExprAST (double_of_Z 2)))
                  (NumberExprAST (double_of_Z 3))),
          tok_eof, [Ready]).
Proof. settle_by_fuel (ParseExpression_mono part_001). Qed.

(** C2 (as [src/main.cpp] has it).  On ["1+2*3"], with the default table,
    [ParseExpression] of [src/main.cpp] returns the number [1] alone and
    stops on ['+']: [GetTokPrecedence] gives ['+'] the precedence [-1], so
    [ParseBinOpRHS] returns its left-hand side at once. *)
Theorem ParseExpression_main_cpp_precedence (k : nat) :
  observe (ParseExpression main_cpp (2 + k) (start "1+2*3"))
  = Some (Some (NumberExprAST (double_of_Z 1)), chr "+", [Ready]).
Proof. settle_by_fuel (ParseExpression_mono main_cpp). Qed.

(** C3 (as [src/main.cpp] has it).  On ["1-2-3"], with the default table,
    [ParseExpression] of [src/main.cpp] returns the number [1] alone and
    stops on the first ['-']. *)
Theorem ParseExpression_main_cpp_left_assoc (k : nat) :
  observe (ParseExpression main_cpp (2 + k) (start "1-2-3"))
  = Some (Some (NumberExprAST (double_of_Z 1)), chr "-", [Ready]).
Proof. settle_by_fuel (ParseExpression_mono main_cpp). Qed.

(** C6 (as stated, refuted).  Whatever the fuel, parsing ["foo(1,"] does
    not print the diagnostic that names [')'] or [','], in either
    program. *)
Lemma ParseExpression_unfinished_call_diagnostic :
  ~ (exists fuel : nat,
       fails_with "Expected ')' or ',' in argument list"
         (ParseExpression main_cpp fuel (start "foo(1,")))
  /\ ~ (exists fuel : nat,
          fails_with "Expected ')' or ',' in argument list"
            (ParseExpression part_001 fuel (start "foo(1,"))).
Proof.
  split; intros (fuel & s' & Hr & Hin).
  all: match type of Hr with
       | ParseExpression ?prog _ ?s = _ =>
           let v := eval vm_compute in (ParseExpression prog 7 s) in
           lazymatch v with
           | Some ?r =>
               assert (E : ParseExpression prog 7 s = Some r)
                 by (vm_compute; reflexivity);
               pose proof (ParseExpression_fuel_agree _ _ _ _ _ _ Hr E) as Heq
           end
       end.
  all: apply (f_equal (fun p => stderr (snd p))) in Heq.
  all: change (stderr s'
               = [Ready; Error "unknown token, expecting expression"]) in Heq.
  all: rewrite Heq in Hin; destruct Hin as [Hin|[Hin|[]]]; discriminate Hin.
Qed.

(** The loop over the arguments of a call, after [n] arguments that were
    each followed by [',']: when the next argument is parsed and the token
    after it is neither [')'] nor [','], the loop prints ["Expected ')' or
    ',' in argument list"]; when the next argument is not parsed, the loop
    prints nothing more.  It returns null in both cases. *)
Lemma ParseIdentifierExpr_loop_unfinished (prog : program) (fuel n : nat) :
  forall (s s1 : state) (Args0 Args : list ExprAST) (r : option ExprAST)
         (s2 : state),
  arguments prog fuel n s = Some (Args, s1) ->
  ParseExpression prog fuel s1 = Some (r, s2) ->
  (r <> None -> CurTok s2 <> chr ")" /\ CurTok s2 <> chr ",") ->
  ParseIdentifierExpr_loop prog (fuel + n + 1) s Args0
  = Some (None,
          match r with
          | Some _ => print s2 (Error "Expected ')' or ',' in argument list")
          | None => s2
          end).
Proof.
  induction n as [|n IH]; intros s s1 Args0 Args r s2 Ha He Hr.
  - simpl in Ha. simplify_eq.
    replace (fuel + 0 + 1)%nat with (S fuel) by lia.
    simpl. rewrite He. simpl. destruct r as [Arg|]; [|reflexivity].
    destruct (Hr ltac:(discriminate)) as [H1 H2].
    apply Z.eqb_neq in H1, H2. simpl in H1, H2. now rewrite H1, H2.
  - simpl in Ha.
    destruct (ParseExpression prog fuel s) as [[[Arg|] s']|] eqn:E;
      simpl in Ha; [|discriminate|discriminate].
    destruct (CurTok s' =? chr ",") eqn:Hc; [|discriminate].
    destruct (arguments prog fuel n (getNextToken s')) as [[l s'']|] eqn:Ea;
      simpl in Ha; [|discriminate].
    simplify_eq.
    replace (fuel + S n + 1)%nat with (S (fuel + n + 1)) by lia.
    simpl.
    rewrite (ParseExpression_mono prog fuel (fuel + n + 1) s _
               ltac:(lia) E).
    simpl.
    assert (Hp : (CurTok s' =? chr ")") = false)
      by (pose proof (proj1 (Z.eqb_eq _ _) Hc) as ->; reflexivity).
    rewrite Hp, Hc. simpl. eapply IH; eassumption.
Qed.

(** The same, seen from the functions that parse the call. *)
Lemma call_fails_unfinished (prog : program) (fuel n : nat)
    (s s1 s2 : state) (Args : list ExprAST) (r : option ExprAST) :
  CurTok (advance 1 s) = chr "(" ->
  CurTok (advance 2 s) <> chr ")" ->
  arguments prog fuel n (advance 2 s) = Some (Args, s1) ->
  ParseExpression prog fuel s1 = Some (r, s2) ->
  (r <> None -> CurTok s2 <> chr ")" /\ CurTok s2 <> chr ",") ->
  call_fails prog (fuel + n)
    s match r with
      | Some _ => print s2 (Error "Expected ')' or ',' in argument list")
      | None => s2
      end.
Proof.
  intros Hopen Hclose Ha He Hr.
  pose proof (ParseIdentifierExpr_loop_unfinished prog fuel n _ _ []
                _ _ _ Ha He Hr) as Hloop.
  simpl in Hopen, Hclose, Hloop. apply Z.eqb_neq in Hclose.
  assert (Hcall : ParseIdentifierExpr prog (S (fuel + n + 1)) s
                  = Some (None,
                          match r with
                          | Some _ =>
                              print s2
                                (Error "Expected ')' or ',' in argument list")
                          | None => s2
                          end)).
  { simpl. rewrite Hopen. simpl. rewrite Hclose. simpl.
    rewrite Hloop. reflexivity. }
  unfold call_fails.
  replace (fuel + n + 2)%nat with (S (fuel + n + 1)) by lia.
  replace (fuel + n + 3)%nat with (S (S (fuel + n + 1))) by lia.
  replace (fuel + n + 4)%nat with (S (S (S (fuel + n + 1)))) by lia.
  split; [exact Hcall|]. intros Hid.
  assert (Hprim : ParsePrimary prog (S (S (fuel + n + 1))) s
                  = Some (None,
                          match r with
                          | Some _ =>
                              print s2
                                (Error "Expected ')' or ',' in argument list")
                          | None => s2
                          end)).
  { change (ParsePrimary prog (S (S (fuel + n + 1))) s)
      with (if CurTok s =? tok_identifier
            then ParseIdentifierExpr prog (S (fuel + n + 1)) s
            else if CurTok s =? tok_number then Some (ParseNumberExpr s)
                 else if CurTok s =? chr "("
                      then ParseParenExpr prog (S (fuel + n + 1)) s
                      else Some (LogError
                                   "unknown token, expecting expression" s)).
    rewrite Hid. exact Hcall. }
  split; [exact Hprim|].
  change (ParseExpression prog (S (S (S (fuel + n + 1)))) s)
    with (ParsePrimary prog (S (S (fuel + n + 1))) s
          ≫= (fun pat : option ExprAST * state =>
                match pat with
                | (Some LHS, s) =>
                    ParseBinOpRHS prog (S (S (fuel + n + 1))) 0 LHS s
                | (None, s) => Some (None, s)
                end)).
  rewrite Hprim. reflexivity.
Qed.

(** C6 (amended).  Parsing ["foo(1,"] fails: [ParseExpression] and
    [ParseTopLevelExpr] return null, no [Call] node, having read the input
    to its end; the one diagnostic is ["unknown token, expecting
    expression"], for the argument missing after [','].  In general, in a
    call whose first [n] arguments are each followed by [','] (the token
    after ['('] not being [')']): when the next argument is parsed and the
    token after it is neither [')'] nor [','], the parse of the call returns
    null and prints ["Expected ')' or ',' in argument list"], leaving that
    token as the current one, as in ["foo(1"] and ["foo(1 2)"]; when the
    next argument is not parsed, the parse of the call returns null and
    prints nothing but what the argument printed; and when the token where
    the next argument should start cannot start an expression, what is
    printed is ["unknown token, expecting expression"]. *)
Theorem ParseExpression_unfinished_call (prog : program) :
  (forall k : nat,
     observe (ParseExpression prog (7 + k) (start "foo(1,"))
     = Some (None, tok_eof,
             [Ready; Error "unknown token, expecting expression"])
     /\ observe (ParseTopLevelExpr prog (7 + k) (start "foo(1,"))
        = Some (None, tok_eof,
                [Ready; Error "unknown token, expecting expression"])
     /\ observe (ParseExpression prog (6 + k) (start "foo(1"))
        = Some (None, tok_eof,
                [Ready; Error "Expected ')' or ',' in argument list"])
     /\ observe (ParseExpression prog (6 + k) (start "foo(1 2)"))
        = Some (None, tok_number,
                [Ready; Error "Expected ')' or ',' in argument list"]))
  /\ (forall (fuel n : nat) (s s1 : state) (Args : list ExprAST),
        CurTok (advance 1 s) = chr "(" ->
        CurTok (advance 2 s) <> chr ")" ->
        arguments prog fuel n (advance 2 s) = Some (Args, s1) ->
        (forall (Arg : ExprAST) (s2 : state),
           ParseExpression prog fuel s1 = Some (Some Arg, s2) ->
           CurTok s2 <> chr ")" -> CurTok s2 <> chr "," ->
           call_fails prog (fuel + n) s
             (print s2 (Error "Expected ')' or ',' in argument list")))
        /\ (forall s2 : state,
              ParseExpression prog fuel s1 = Some (None, s2) ->
              call_fails prog (fuel + n) s s2)
        /\ ((2 <= fuel)%nat ->
            CurTok s1 <> tok_identifier -> CurTok s1 <> tok_number ->
            CurTok s1 <> chr "(" ->
            call_fails prog (fuel + n) s
              (print s1 (Error "unknown token, expecting expression")))).
Proof.
  split.
  - intros k.
    destruct prog; repeat split;
      first [ settle_by_fuel (ParseExpression_mono main_cpp)
            | settle_by_fuel (ParseExpression_mono part_001)
            | settle_by_fuel (ParseTopLevelExpr_mono main_cpp)
            | settle_by_fuel (ParseTopLevelExpr_mono part_001) ].
  - intros fuel n s s1 Args Hopen Hclose Ha.
    split; [|split].
    + intros Arg s2 He H1 H2.
      exact (call_fails_unfinished prog fuel n s s1 s2 Args
               (Some Arg) Hopen Hclose Ha He (fun _ => conj H1 H2)).
    + intros s2 He.
      exact (call_fails_unfinished prog fuel n s s1 s2 Args
               None Hopen Hclose Ha He
               (fun H => False_ind _ (H eq_refl))).
    + intros Hfuel Hi Hn Hp.
      apply (call_fails_unfinished prog fuel n s s1 _ Args
               None Hopen Hclose Ha); [|intros H; now contradiction H].
      destruct fuel as [|[|fuel]]; [lia|lia|].
      apply Z.eqb_neq in Hi, Hn, Hp. simpl in Hi, Hn, Hp |- *.
      now rewrite Hi, Hn, Hp.
Qed.

(** The amended C6 on ["foo(1, 2 3)"]: the second argument is followed by
    a number. *)
Lemma ParseExpression_unfinished_call_witness :
  observe (ParseExpression part_001 (3 + 1 + 4) (start "foo(1, 2 3)"))
  = Some (None, tok_number,
          [Ready; Error "Expected ')' or ',' in argument list"]).
Proof.
  let a := eval vm_compute in
             (arguments part_001 3 1 (advance 2 (start "foo(1, 2 3)"))) in
  lazymatch a with
  | Some (?Args, ?s1) =>
      let e := eval vm_compute in (ParseExpression part_001 3 s1) in
      lazymatch e with
      | Some (Some ?Arg, ?s2) =>
          refine (eq_trans
                    (f_equal observe
                       (proj2 (proj2
                          (proj1 (proj2 (ParseExpression_unfinished_call
                                           part_001)
                                    3%nat 1%nat (start "foo(1, 2 3)") s1 Args
                                    _ _ _)
                             Arg s2 _ _ _) _))) _)
      end
  end.
  all: first [ vm_compute; reflexivity | vm_compute; discriminate ].
Defined.

(** C8.  ["foo(1,2,3)"] as a top-level expression: the call of [foo] with
    the arguments 1, 2, 3 in this order, in a function whose prototype has
    the empty name and no parameter; the input is read to its end and
    nothing is reported. *)
Theorem ParseTopLevelExpr_call (prog : program) (k : nat) :
  observe (ParseTopLevelExpr prog (8 + k) (start "foo(1,2,3)"))
  = Some (Some (mkFunctionAST (mkPrototypeAST "" [])
                  (CallExprAST "foo"
                     [NumberExprAST (double_of_Z 1);
                      NumberExprAST (double_of_Z 2);
                      NumberExprAST (double_of_Z 3)])),
          tok_eof, [Ready]).
Proof.
  destruct prog;
    first [ settle_by_fuel (ParseTopLevelExpr_mono main_cpp)
          | settle_by_fuel (ParseTopLevelExpr_mono part_001) ].
Qed.

End Expressions.

(** * Prototypes and definitions *)

Section Prototypes.

Lemma advance_stderr (n : nat) : forall s : state,
  stderr (advance n s) = stderr s.
Proof.
  induction n as [|n IH]; intros s; simpl; [reflexivity|].
  now rewrite IH, getNextToken_stderr.
Qed.

Lemma advance_S (n : nat) : forall s : state,
  advance (S n) s = getNextToken (advance n s).
Proof.
  induction n as [|n IH]; intros s; [reflexivity|].
  change (advance (S (S n)) s) with (advance (S n) (getNextToken s)).
  now rewrite IH.
Qed.

Lemma tokens_cons (n : nat) (s : state) (t : Z) (l : list Z) :
  tokens (S n) s = t :: l ->
  CurTok (getNextToken s) = t /\ tokens n (getNextToken s) = l.
Proof. simpl. intros H. now injection H. Qed.

(** The last of the next [n + 1] tokens is the current token after [n + 1]
    calls of [getNextToken]. *)
Lemma tokens_last (n : nat) : forall (s : state) (l : list Z) (t : Z),
  tokens (S n) s = (l ++ [t])%list -> CurTok (advance (S n) s) = t.
Proof.
  induction n as [|n IH]; intros s l t H.
  - simpl in H. destruct l as [|x l]; simpl in H.
    + injection H as <-. reflexivity.
    + injection H as _ H. destruct l; discriminate H.
  - destruct l as [|x l].
    + simpl in H. discriminate H.
    + apply tokens_cons in H as [_ H]. exact (IH _ _ _ H).
Qed.

Local Arguments advance : simpl never.
Local Arguments tokens : simpl never.
Local Arguments identifiers : simpl never.

(** The loop of [ParsePrototype] collects the identifiers up to the first
    token that is not one, and stops on that token. *)
Lemma ParsePrototype_loop_spec (n : nat) :
  forall (fuel : nat) (s : state) (ArgNames : list string) (t : Z),
  (n < fuel)%nat ->
  tokens (S n) s = (repeat tok_identifier n ++ [t])%list ->
  t <> tok_identifier ->
  ParsePrototype_loop fuel s ArgNames
  = Some ((ArgNames ++ identifiers n s)%list, advance (S n) s).
Proof.
  induction n as [|n IH]; intros fuel s ArgNames t Hfuel Htok Ht;
    (destruct fuel as [|fuel]; [lia|]);
    apply tokens_cons in Htok as [Hid Htok]; simpl ParsePrototype_loop.
  - destruct (Z.eqb_spec (CurTok (getNextToken s)) tok_identifier);
      [congruence|].
    change (identifiers 0 s) with (@nil string). now rewrite app_nil_r.
  - rewrite Hid, Z.eqb_refl.
    rewrite (IH fuel (getNextToken s) _ t) by (lia || assumption).
    change (identifiers (S n) s)
      with (IdentifierStr (getNextToken s)
            :: identifiers n (getNextToken s)).
    now rewrite <- app_assoc.
Qed.

Lemma ParsePrototype_no_name (fuel : nat) (s : state) :
  CurTok s <> tok_identifier ->
  ParsePrototype fuel s
  = Some (None, print s (Error "Expected function name in prototype")).
Proof.
  intros H. unfold ParsePrototype.
  now destruct (Z.eqb_spec (CurTok s) tok_identifier).
Qed.

Lemma ParsePrototype_no_paren (fuel : nat) (s : state) :
  CurTok s = tok_identifier ->
  CurTok (getNextToken s) <> chr "(" ->
  ParsePrototype fuel s
  = Some (None, print (getNextToken s) (Error "Expected '(' in prototype")).
Proof.
  intros H1 H2. unfold ParsePrototype. rewrite H1, Z.eqb_refl. simpl.
  now destruct (Z.eqb_spec (CurTok (getNextToken s)) (chr "(")).
Qed.

(** [ParsePrototype] on a name, ['('], [n] identifiers and a token [t] that
    is not an identifier: the prototype with the [n] names when [t] is
    [')'], which is consumed; the failure ["Expected ')' in prototype"]
    otherwise, with [t] left as the current token. *)
Lemma ParsePrototype_params (fuel n : nat) (s : state) (t : Z) :
  CurTok s = tok_identifier ->
  tokens (S (S n)) s = (chr "(" :: repeat tok_identifier n ++ [t])%list ->
  t <> tok_identifier ->
  (n < fuel)%nat ->
  ParsePrototype fuel s
  = if t =? chr ")"
    then Some (Some (mkPrototypeAST (IdentifierStr s)
                       (identifiers n (getNextToken s))),
               advance (3 + n) s)
    else Some (None,
               print (advance (2 + n) s) (Error "Expected ')' in prototype")).
Proof.
  intros Hname Htok Ht Hfuel.
  apply tokens_cons in Htok as [Hparen Htok].
  unfold ParsePrototype. rewrite Hname, Z.eqb_refl, Hparen, Z.eqb_refl.
  simpl negb. cbv iota.
  rewrite (ParsePrototype_loop_spec n fuel _ [] t) by assumption.
  simpl. rewrite (tokens_last _ _ _ _ Htok).
  destruct (t =? chr ")"); simpl; [|reflexivity].
  now rewrite <- advance_S.
Qed.

(** [part_001] parses the definition of the specification as the
    specification has it. *)
Lemma ParseDefinition_part_001_foo (k : nat) :
  observe (ParseDefinition part_001 (4 + k) (start "def foo(a b) a+b"))
  = Some (Some (mkFunctionAST (mkPrototypeAST "foo" ["a"; "b"])
                  (BinaryExprAST "+" (VariableExprAST "a")
                     (VariableExprAST "b"))),
          tok_eof, [Ready]).
Proof. settle_by_fuel (ParseDefinition_mono part_001). Qed.

(** C7 (as [src/main.cpp] has it).  On ["def foo(a b) a+b"],
    [ParseDefinition] of [src/main.cpp] returns the prototype of [foo] with
    the parameters [a] and [b], and the body [a] alone; it stops on ['+'],
    to which [GetTokPrecedence] gives the precedence [-1]. *)
Theorem ParseDefinition_main_cpp_foo (k : nat) :
  observe (ParseDefinition main_cpp (3 + k) (start "def foo(a b) a+b"))
  = Some (Some (mkFunctionAST (mkPrototypeAST "foo" ["a"; "b"])
                  (VariableExprAST "a")),
          chr "+", [Ready]).
Proof. settle_by_fuel (ParseDefinition_mono main_cpp). Qed.

(** C10.  A definition whose prototype has a [','] after the name, ['(']
    and [n] parameter names: [ParsePrototype] stops collecting on the [','],
    prints ["Expected ')' in prototype"] and returns null, and so does
    [ParseDefinition]; the [','] is left as the current token. *)
Theorem ParseDefinition_comma_in_prototype (prog : program) (fuel n : nat)
    (s : state) :
  tokens (3 + n) s
  = (tok_identifier :: chr "(" :: repeat tok_identifier n ++ [chr ","])%list ->
  (n < fuel)%nat ->
  ParsePrototype fuel (getNextToken s)
  = Some (None, print (advance (3 + n) s) (Error "Expected ')' in prototype"))
  /\ ParseDefinition prog fuel s
     = Some (None,
             print (advance (3 + n) s) (Error "Expected ')' in prototype"))
  /\ CurTok (advance (3 + n) s) = chr ","
  /\ stderr (print (advance (3 + n) s) (Error "Expected ')' in prototype"))
     = (stderr s ++ [Error "Expected ')' in prototype"])%list.
Proof.
  intros Htok Hfuel.
  apply tokens_cons in Htok as [Hname Htok].
  assert (Hp : ParsePrototype fuel (getNextToken s)
               = Some (None, print (advance (3 + n) s)
                               (Error "Expected ')' in prototype"))).
  { rewrite (ParsePrototype_params fuel n _ (chr ",") Hname Htok)
      by (done || lia).
    reflexivity. }
  repeat split.
  - exact Hp.
  - unfold ParseDefinition. rewrite Hp. reflexivity.
  - change (advance (3 + n) s) with (advance (S (S n)) (getNextToken s)).
    apply (tokens_last _ _ (chr "(" :: repeat tok_identifier n)).
    exact Htok.
  - simpl stderr. now rewrite advance_stderr.
Qed.

(** C10 on ["def f(a, b) a+b"]. *)
Lemma ParseDefinition_comma_in_prototype_witness :
  ParseDefinition part_001 2 (start "def f(a, b) a+b")
  = Some (None,
          print (advance 4 (start "def f(a, b) a+b"))
            (Error "Expected ')' in prototype")).
Proof.
  refine (proj1 (proj2 (ParseDefinition_comma_in_prototype part_001 2 1
                          (start "def f(a, b) a+b") _ _))).
  - vm_compute. reflexivity.
  - lia.
Defined.

End Prototypes.

(** * The driver *)

Section Driver.

Lemma main_mono (n m : nat) (input : string) (r : state) :
  (n <= m)%nat -> main n input = Some r -> main m input = Some r.
Proof. unfold main. apply MainLoop_mono. Qed.

(** The [switch] of [MainLoop] has no [case tok_extern]: the keyword goes
    to the [default] case. *)
Lemma MainLoop_switch_extern : MainLoop_switch tok_extern = case_default.
Proof. reflexivity. Qed.

(** On [extern], the driver takes the keyword for the start of an
    expression, reports ["unknown token, expecting expression"] and skips
    the keyword. *)
Lemma MainLoop_main_cpp_extern (fuel : nat) (s : state) :
  CurTok s = tok_extern ->
  ParseTopLevelExpr main_cpp (2 + fuel) s
  = Some (None, print s (Error "unknown token, expecting expression"))
  /\ MainLoop (3 + fuel) s
     = MainLoop (2 + fuel)
         (getNextToken
            (print (print s Ready)
               (Error "unknown token, expecting expression"))).
Proof.
  intros H. split.
  - unfold ParseTopLevelExpr. simpl. rewrite H. reflexivity.
  - change (MainLoop (3 + fuel) s)
      with (match MainLoop_switch (CurTok (print s Ready)) with
            | case_eof => Some (print s Ready)
            | case_semicolon =>
                MainLoop (2 + fuel) (getNextToken (print s Ready))
            | case_def =>
                HandleDefinition (2 + fuel) (print s Ready)
                ≫= MainLoop (2 + fuel)
            | case_default =>
                HandleTopLevelExpression (2 + fuel) (print s Ready)
                ≫= MainLoop (2 + fuel)
            end).
    change (CurTok (print s Ready)) with (CurTok s). rewrite H.
    change (MainLoop_switch tok_extern) with case_default.
    cbv iota. unfold HandleTopLevelExpression, ParseTopLevelExpr.
    change (ParseExpression main_cpp (2 + fuel) (print s Ready))
      with (ParsePrimary main_cpp (S fuel) (print s Ready)
            ≫= (fun pat : option ExprAST * state =>
                  match pat with
                  | (Some LHS, s) => ParseBinOpRHS main_cpp (S fuel) 0 LHS s
                  | (None, s) => Some (None, s)
                  end)).
    change (ParsePrimary main_cpp (S fuel) (print s Ready))
      with (if CurTok (print s Ready) =? tok_identifier
            then ParseIdentifierExpr main_cpp fuel (print s Ready)
            else if CurTok (print s Ready) =? tok_number
                 then Some (ParseNumberExpr (print s Ready))
                 else if CurTok (print s Ready) =? chr "("
                      then ParseParenExpr main_cpp fuel (print s Ready)
                      else Some (LogError
                                   "unknown token, expecting expression"
                                   (print s Ready))).
    change (CurTok (print s Ready)) with (CurTok s). rewrite H.
    reflexivity.
Qed.

(** [HandleExtern], which [MainLoop] does not call, would parse the
    declaration of ["extern sin(x);"]. *)
Lemma HandleExtern_sin (k : nat) :
  stderr <$> HandleExtern (2 + k) (start "extern sin(x);")
  = Some [Ready; Parsed (Extern_ (mkPrototypeAST "sin" ["x"]))].
Proof.
  unfold HandleExtern.
  match goal with
  | |- context [ParseExtern _ ?s] =>
      let v := eval vm_compute in (ParseExtern 2 s) in
      lazymatch v with
      | Some ?r =>
          assert (E : ParseExtern 2 s = Some r) by (vm_compute; reflexivity);
          rewrite (ParseExtern_mono 2 (2 + k) s r ltac:(lia) E)
      end
  end.
  vm_compute. reflexivity.
Qed.

(** C4 (as [src/main.cpp] has it).  On ["extern sin(x);"] the first token
    is [tok_extern], and [MainLoop] of [src/main.cpp] does not parse a
    declaration: it reports ["unknown token, expecting expression"] for the
    keyword, skips it, and parses [sin(x)] as a top-level expression. *)
Theorem main_main_cpp_extern (k : nat) :
  CurTok (start "extern sin(x);") = tok_extern
  /\ stderr <$> main (9 + k) "extern sin(x);"
     = Some [Ready; Ready; Error "unknown token, expecting expression";
             Ready;
             Parsed (TopLevelExpr_
                       (mkFunctionAST (mkPrototypeAST "" [])
                          (CallExprAST "sin" [VariableExprAST "x"])));
             Ready; Ready].
Proof.
  split; [vm_compute; reflexivity | settle_by_fuel main_mono].
Qed.

End Driver.

(** * Numbers *)

Section Numbers.

Lemma scan_digits_app (d : string) : forall (x : string) (m : Z) (n : nat),
  all_digits d = true ->
  starts_with_digit x = false ->
  scan_digits (d ++ x) m n
  = (fst (fst (scan_digits d m n)), snd (fst (scan_digits d m n)), x).
Proof.
  induction d as [|a d IH]; intros x m n Hd Hx.
  - change (("" ++ x)%string) with x.
    destruct x as [|b x]; [reflexivity|]. simpl in *.
    unfold digit_of. now rewrite Hx.
  - rewrite append_String. simpl in Hd.
    apply andb_true_iff in Hd as [Ha Hd].
    simpl. unfold digit_of. rewrite Ha. now apply IH.
Qed.

(** In a text of the form [digits.digits.rest], [strtod] converts
    [digits.digits]: the number ends before the second ['.']. *)
Lemma strtod_second_dot (d1 d2 rest : string) :
  all_digits d1 = true -> all_digits d2 = true ->
  strtod (d1 ++ String "." (d2 ++ String "." rest))
  = strtod (d1 ++ String "." d2).
Proof.
  intros H1 H2. unfold strtod.
  rewrite !(scan_digits_app d1) by (assumption || reflexivity).
  destruct (scan_digits d1 0 0) as [[m1 n1] r1]. simpl.
  rewrite (scan_digits_app d2) by (assumption || reflexivity).
  now destruct (scan_digits d2 m1 0) as [[m2 n2] r2].
Qed.

(** The doubles of the integers 1, 2 and 3, which [strtod] gives for their
    decimal texts. *)
Lemma double_of_Z_small :
  (double_of_Z 1 = SpecFloat.S754_finite false 4503599627370496 (-52)
   /\ strtod "1" = double_of_Z 1)
  /\ (double_of_Z 2 = SpecFloat.S754_finite false 4503599627370496 (-51)
      /\ strtod "2" = double_of_Z 2)
  /\ (double_of_Z 3 = SpecFloat.S754_finite false 6755399441055744 (-51)
      /\ strtod "3" = double_of_Z 3).
Proof. repeat split; vm_compute; reflexivity. Qed.

(** [strtod] rounds: the doubles of some decimal numbers.  [0.1] and [1.2]
    are not doubles, and are rounded to the nearest one; [2^53 + 1] lies
    half way between two doubles and goes to the even one; the largest
    double is [(2^53 - 1) * 2^971], and a number beyond it gives plus
    infinity; a number below the smallest subnormal double, [2^-1074], gives
    that one or zero. *)
Lemma strtod_rounds :
  strtod "1" = SpecFloat.S754_finite false 4503599627370496 (-52)
  /\ strtod "0.1" = SpecFloat.S754_finite false 7205759403792794 (-56)
  /\ strtod "1.2" = SpecFloat.S754_finite false 5404319552844595 (-52)
  /\ strtod "9007199254740993"
     = SpecFloat.S754_finite false 4503599627370496 1
  /\ strtod "9007199254740995"
     = SpecFloat.S754_finite false 4503599627370498 1
  /\ strtod (String "1" (string_of_list_ascii (repeat "0"%char 308)))
     = SpecFloat.S754_finite false 5010420900022432 971
  /\ strtod (String "1" (string_of_list_ascii (repeat "0"%char 309)))
     = SpecFloat.S754_infinity false
  /\ strtod (String "." (string_of_list_ascii (repeat "0"%char 323 ++ ["3"%char])))
     = SpecFloat.S754_finite false 1 (-1074)
  /\ strtod (String "." (string_of_list_ascii (repeat "0"%char 323 ++ ["2"%char])))
     = SpecFloat.S754_zero false
  /\ strtod "" = SpecFloat.S754_zero false
  /\ strtod "0.0" = SpecFloat.S754_zero false.
Proof. repeat split; vm_compute; reflexivity. Qed.

(** C9.  The lexer on a number.  With the cursor on a digit or ['.'], and
    the input continuing with a run of digits and ['.'] that ends at the
    end of the input or before a character that is neither, [getTok] reads
    the whole run, returns one [tok_number] and sets [NumVal] to the
    conversion by [strtod] of the whole text, leaving the cursor on the
    character after the run.  [strtod] converts the longest initial segment
    that is a number: in [digits.digits.rest] it stops before the second
    ['.'].  So ["1.2.3"] is one number token followed by the end of the
    input, and its value is the one of ["1.2"]: the double nearest to 1.2,
    [5404319552844595 * 2^-52] (the bits [0x3FF3333333333333]); and ["."]
    is one number token of value zero. *)
Theorem getTok_number_run :
  (forall (s : state) (run rest : string),
     is_num_char (LastChar s) = true ->
     stdin s = (run ++ rest)%string ->
     all_num_chars run = true ->
     is_num_char (fst (getchar rest)) = false ->
     getTok s
     = (tok_number,
        set_NumVal (set_lexer s (fst (getchar rest)) (snd (getchar rest)))
          (strtod (String (char_of_int (LastChar s)) run))))
  /\ (forall d1 d2 rest : string,
        all_digits d1 = true -> all_digits d2 = true ->
        strtod (d1 ++ String "." (d2 ++ String "." rest))
        = strtod (d1 ++ String "." d2))
  /\ (tokens 2 (initial "1.2.3") = [tok_number; tok_eof]
      /\ NumVal (getNextToken (initial "1.2.3")) = strtod "1.2"
      /\ strtod "1.2.3" = strtod "1.2"
      /\ strtod "1.2" = SpecFloat.S754_finite false 5404319552844595 (-52))
  /\ (tokens 2 (initial ".") = [tok_number; tok_eof]
      /\ NumVal (getNextToken (initial ".")) = SpecFloat.S754_zero false
      /\ strtod "." = SpecFloat.S754_zero false).
Proof.
  split; [exact getTok_number|].
  split; [exact strtod_second_dot|].
  repeat split; vm_compute; reflexivity.
Qed.

(** C9 on the number of ["1.2.3+4"], with the cursor on its first digit. *)
Lemma getTok_number_run_witness :
  getTok (set_lexer (initial "") (chr "1") ".2.3+4")
  = (tok_number,
     set_NumVal (set_lexer (initial "") (chr "+") "4") (strtod "1.2.3")).
Proof.
  exact (proj1 getTok_number_run
           (set_lexer (initial "") (chr "1") ".2.3+4") ".2.3" "+4"
           eq_refl eq_refl eq_refl eq_refl).
Defined.

End Numbers.

(** * Further properties of the lexer *)

Section LexerMore.

Lemma set_lexer_set_lexer (s : state) (c c' : Z) (inp inp' : string) :
  set_lexer (set_lexer s c inp) c' inp' = set_lexer s c' inp'.
Proof. reflexivity. Qed.

Lemma set_lexer_same (s : state) : set_lexer s (LastChar s) (stdin s) = s.
Proof. now destruct s. Qed.

(** [getTok] either returns a token without calling itself, or calls itself
    once, after a comment, on a shorter input. *)
Lemma getTok_body_cases (s : state) :
  (exists r, forall again, getTok_body again s = Some r)
  \/ (exists s',
        (forall again, getTok_body again s = again s')
        /\ (String.length (stdin s') < String.length (stdin s))%nat).
Proof.
  unfold getTok_body.
  pose proof (skip_whitespace_length (LastChar s) (stdin s)) as Hws.
  destruct (skip_whitespace (LastChar s) (stdin s)) as [c inp]. simpl in Hws.
  destruct (isalpha c).
  { left. destruct (read_identifier _ _) as [[id c'] inp'].
    repeat case_match; eauto. }
  destruct (is_num_char c).
  { left. destruct (read_number _ _) as [[n c'] inp']. eauto. }
  destruct (c =? chr "#").
  - pose proof (skip_comment_length inp) as Hc.
    destruct (skip_comment inp) as [c' inp']. simpl in Hc.
    destruct (Z.eqb_spec c' EOF) as [->|Hne]; simpl.
    + left. eauto.
    + right. eexists. split; [reflexivity|]. simpl. specialize (Hc Hne). lia.
  - left. destruct (c =? EOF); [eauto|]. destruct (getchar inp). eauto.
Qed.

Lemma getTok_fuel_agree (fuel : nat) : forall (m : nat) (s : state),
  (String.length (stdin s) <= fuel)%nat ->
  (String.length (stdin s) <= m)%nat ->
  getTok_fuel fuel s = getTok_fuel m s.
Proof.
  induction fuel as [|fuel IH]; intros m s Hf Hm;
    rewrite (getTok_fuel_unfold _ s), (getTok_fuel_unfold m s);
    (destruct (getTok_body_cases s) as [[r Hr]|(s' & Hs' & Hlt)];
     [now rewrite !Hr | rewrite !Hs']).
  - lia.
  - destruct m as [|m]; [lia|]. apply IH; lia.
Qed.

Lemma getTok_fuel_enough (fuel : nat) (s : state) :
  (String.length (stdin s) <= fuel)%nat ->
  getTok_fuel fuel s = Some (getTok s).
Proof.
  intros H. rewrite <- getTok_spec. apply getTok_fuel_agree; lia.
Qed.

(** [getTok] satisfies the equation of its source: the body, with [getTok]
    itself for the call after a comment. *)
Lemma getTok_unfold (s : state) :
  Some (getTok s) = getTok_body (fun s' => Some (getTok s')) s.
Proof.
  rewrite <- (getTok_fuel_enough (S (String.length (stdin s))) s) by lia.
  rewrite getTok_fuel_unfold.
  destruct (getTok_body_cases s) as [[r Hr]|(s' & Hs' & Hlt)].
  - now rewrite !Hr.
  - rewrite !Hs'. apply getTok_fuel_enough. lia.
Qed.

Lemma isalpha_not_space (c : Z) : isalpha c = true -> isspace c = false.
Proof. unfold isalpha, isupper, islower, isspace. lia. Qed.

Lemma is_punctuation_spec (c : Z) :
  is_punctuation c = true ->
  isspace c = false /\ isalpha c = false /\ is_num_char c = false
  /\ (c =? chr "#") = false /\ (c =? EOF) = false.
Proof.
  unfold is_punctuation. intros H.
  repeat (apply andb_true_iff in H as [H ?]).
  repeat split; now apply negb_true_iff.
Qed.

Lemma read_identifier_run (run rest id : string) :
  all_alnum run = true ->
  isalnum (fst (getchar rest)) = false ->
  read_identifier (run ++ rest) id
  = ((id ++ run)%string, fst (getchar rest), snd (getchar rest)).
Proof.
  revert id. induction run as [|a run IH]; intros id Hrun Hrest.
  - rewrite append_empty_r. change (("" ++ rest)%string) with rest.
    destruct rest as [|b rest]; simpl in *; [reflexivity|].
    now rewrite Hrest.
  - simpl in Hrun. apply andb_true_iff in Hrun as [Ha Hrun].
    rewrite append_String. simpl.
    rewrite Ha, char_of_int_chr, IH by assumption.
    now rewrite append_cons_r.
Qed.

Lemma skip_comment_line (body rest : string) (nl : ascii) :
  no_newline body = true -> is_newline (chr nl) = true ->
  skip_comment (body ++ String nl rest) = (chr nl, rest).
Proof.
  intros Hb Hnl. induction body as [|a body IH].
  - change (("" ++ String nl rest)%string) with (String nl rest). simpl.
    unfold is_newline in Hnl. now rewrite Hnl.
  - simpl in Hb. apply andb_true_iff in Hb as [Ha Hb].
    rewrite append_String. simpl. unfold is_newline in Ha.
    apply negb_true_iff in Ha. rewrite Ha. now apply IH.
Qed.

Lemma skip_comment_end (body : string) :
  no_newline body = true -> skip_comment body = (EOF, "").
Proof.
  induction body as [|a body IH]; intros Hb; [reflexivity|].
  simpl in Hb. apply andb_true_iff in Hb as [Ha Hb].
  simpl. unfold is_newline in Ha. apply negb_true_iff in Ha.
  rewrite Ha. now apply IH.
Qed.

(** X1.  At the end of the input [getTok] returns [tok_eof] and changes
    nothing, however often it is called. *)
Theorem getTok_at_EOF (s : state) :
  LastChar s = EOF -> getTok s = (tok_eof, s).
Proof.
  intros H. pose proof (getTok_unfold s) as Hu.
  unfold getTok_body in Hu. rewrite H in Hu.
  rewrite skip_whitespace_nonspace in Hu by reflexivity.
  simpl in Hu. injection Hu as ->. f_equal.
  rewrite <- H. apply set_lexer_same.
Qed.

(** X2.  With the cursor on a letter, followed by a run of letters and
    digits that ends at the end of the input or before another character,
    [getTok] reads the whole word, stores it in [IdentifierStr] and returns
    [tok_def] for ["def"], [tok_extern] for ["extern"] and [tok_identifier]
    for every other word; the cursor is left on the character after the
    word. *)
Theorem getTok_word (s : state) (run rest : string) :
  isalpha (LastChar s) = true ->
  stdin s = (run ++ rest)%string ->
  all_alnum run = true ->
  isalnum (fst (getchar rest)) = false ->
  getTok s
  = (word_token (String (char_of_int (LastChar s)) run),
     set_IdentifierStr
       (set_lexer s (fst (getchar rest)) (snd (getchar rest)))
       (String (char_of_int (LastChar s)) run)).
Proof.
  intros Hc Hin Hrun Hrest. pose proof (getTok_unfold s) as Hu.
  unfold getTok_body in Hu.
  rewrite (skip_whitespace_nonspace _ _ (isalpha_not_space _ Hc)) in Hu.
  rewrite Hc, Hin, (read_identifier_run _ _ _ Hrun Hrest) in Hu.
  change ((String (char_of_int (LastChar s)) "" ++ run)%string)
    with (String (char_of_int (LastChar s)) run) in Hu.
  unfold word_token.
  destruct (String.eqb _ "def"); [now injection Hu as ->|].
  destruct (String.eqb _ "extern"); now injection Hu as ->.
Qed.

(** X3.  A comment is no token.  With the cursor on ['#'], [getTok] drops
    the text up to the end of the line and returns the token that follows;
    when the input ends inside the comment it returns [tok_eof]. *)
Theorem getTok_comment (s : state) (body : string) :
  LastChar s = chr "#" ->
  no_newline body = true ->
  (forall (nl : ascii) (rest : string),
     is_newline (chr nl) = true ->
     stdin s = (body ++ String nl rest)%string ->
     getTok s = getTok (set_lexer s (chr nl) rest))
  /\ (stdin s = body -> getTok s = (tok_eof, set_lexer s EOF "")).
Proof.
  intros Hc Hb. pose proof (getTok_unfold s) as Hu.
  unfold getTok_body in Hu. rewrite Hc in Hu.
  rewrite skip_whitespace_nonspace in Hu by reflexivity.
  change (isalpha (chr "#")) with false in Hu.
  change (is_num_char (chr "#")) with false in Hu.
  rewrite Z.eqb_refl in Hu. cbv iota in Hu.
  split.
  - intros nl rest Hnl Hin.
    rewrite Hin, (skip_comment_line _ _ _ Hb Hnl) in Hu.
    assert (Hne : (chr nl =? EOF) = false).
    { pose proof (chr_range nl). unfold EOF. lia. }
    rewrite Hne in Hu. simpl in Hu. now injection Hu.
  - intros Hin. rewrite Hin, (skip_comment_end _ Hb) in Hu.
    simpl in Hu. now injection Hu.
Qed.

(** X4.  White space before a token is skipped: with the cursor on a white
    space character, [getTok] returns what it returns from the next
    character on. *)
Theorem getTok_whitespace (s : state) :
  isspace (LastChar s) = true ->
  getTok s
  = getTok (set_lexer s (fst (getchar (stdin s))) (snd (getchar (stdin s)))).
Proof.
  intros Hc.
  assert (Hb : forall again,
             getTok_body again s
             = getTok_body again
                 (set_lexer s (fst (getchar (stdin s)))
                    (snd (getchar (stdin s))))).
  { intros again. unfold getTok_body.
    assert (Hs : skip_whitespace (LastChar s) (stdin s)
                 = skip_whitespace (fst (getchar (stdin s)))
                     (snd (getchar (stdin s)))).
    { destruct (stdin s) as [|a r]; simpl; now rewrite Hc. }
    simpl. now rewrite Hs. }
  pose proof (getTok_unfold s) as Hu. rewrite Hb, <- getTok_unfold in Hu.
  now injection Hu.
Qed.

(** X5.  Any other character is a token by itself: with the cursor on a
    character that is not white space, a letter, a digit, ['.'] or ['#'],
    [getTok] returns this character and moves the cursor by one. *)
Theorem getTok_punctuation (s : state) :
  is_punctuation (LastChar s) = true ->
  getTok s
  = (LastChar s,
     set_lexer s (fst (getchar (stdin s))) (snd (getchar (stdin s)))).
Proof.
  intros (Hsp & Hal & Hnum & Hhash & Heof)%is_punctuation_spec.
  pose proof (getTok_unfold s) as Hu. unfold getTok_body in Hu.
  rewrite (skip_whitespace_nonspace _ _ Hsp), Hal, Hnum, Hhash, Heof in Hu.
  destruct (getchar (stdin s)) as [c' inp']. now injection Hu.
Qed.

Lemma getTok_comment_step (s : state) (a : ascii) (r : string) :
  LastChar s = chr "#" -> stdin s = String a r ->
  is_newline (chr a) = false ->
  getTok s = getTok (set_lexer s (chr "#") r).
Proof.
  intros Hc Hin Ha.
  assert (Hb : forall again,
             getTok_body again s
             = getTok_body again (set_lexer s (chr "#") r)).
  { intros again. unfold getTok_body. simpl. rewrite Hc, Hin.
    rewrite !skip_whitespace_nonspace by reflexivity.
    change (isalpha (chr "#")) with false.
    change (is_num_char (chr "#")) with false.
    rewrite Z.eqb_refl. cbv iota. simpl skip_comment.
    unfold is_newline in Ha. now rewrite Ha. }
  pose proof (getTok_unfold s) as Hu. rewrite Hb, <- getTok_unfold in Hu.
  now injection Hu.
Qed.

Lemma is_newline_space (c : Z) : is_newline c = true -> isspace c = true.
Proof. unfold is_newline, isspace. lia. Qed.

Lemma getTok_blank_gen (inp : string) :
  forall (in_comment : bool) (s : state),
  stdin s = inp ->
  blank in_comment inp = true ->
  (if in_comment then LastChar s = chr "#"
   else isspace (LastChar s) = true) ->
  getTok s = (tok_eof, set_lexer s EOF "").
Proof.
  induction inp as [|a r IH]; intros in_comment s Hin Hb Hc.
  - destruct in_comment.
    + now apply (getTok_comment s "" Hc eq_refl).
    + rewrite (getTok_whitespace s Hc), Hin. simpl.
      now rewrite getTok_at_EOF.
  - simpl in Hb. destruct in_comment.
    + destruct (is_newline (chr a)) eqn:Ha; simpl in Hb.
      * rewrite (proj1 (getTok_comment s "" Hc eq_refl) a r Ha Hin).
        rewrite (IH false (set_lexer s (chr a) r) eq_refl Hb
                   (is_newline_space _ Ha)).
        reflexivity.
      * rewrite (getTok_comment_step s a r Hc Hin Ha).
        now rewrite (IH true (set_lexer s (chr "#") r) eq_refl Hb eq_refl).
    + rewrite (getTok_whitespace s Hc), Hin. simpl.
      destruct (isspace (chr a)) eqn:Hsp.
      * now rewrite (IH false (set_lexer s (chr a) r) eq_refl Hb Hsp).
      * destruct (Z.eqb_spec (chr a) (chr "#")) as [He|He];
          [|discriminate Hb].
        now rewrite (IH true (set_lexer s (chr a) r) eq_refl Hb He).
Qed.

(** X6.  On an input of white space and comments only, the lexer returns
    [tok_eof], having read the input to its end. *)
Theorem getTok_blank (s : state) :
  isspace (LastChar s) = true ->
  blank false (stdin s) = true ->
  getTok s = (tok_eof, set_lexer s EOF "").
Proof. intros Hc Hb. now apply (getTok_blank_gen (stdin s) false). Qed.

Lemma skip_whitespace_result (inp : string) : forall c : Z,
  isspace (fst (skip_whitespace c inp)) = false.
Proof.
  induction inp as [|a inp IH]; intros c; simpl;
    destruct (isspace c) eqn:Hc; simpl; auto.
Qed.

Lemma read_identifier_acc (inp : string) : forall id : string,
  exists run, fst (fst (read_identifier inp id)) = (id ++ run)%string.
Proof.
  induction inp as [|a inp IH]; intros id; simpl.
  - exists "". now rewrite append_empty_r.
  - destruct (isalnum (chr a)).
    + destruct (IH (id ++ String (char_of_int (chr a)) "")%string)
        as [run Hrun].
      exists (String (char_of_int (chr a)) run).
      now rewrite Hrun, append_cons_r.
    + exists "". simpl. now rewrite append_empty_r.
Qed.

Lemma getTok_fuel_token (fuel : nat) : forall (s s' : state) (t : Z),
  char_or_EOF (LastChar s) ->
  getTok_fuel fuel s = Some (t, s') ->
  (t = tok_def /\ IdentifierStr s' = "def")
  \/ (t = tok_extern /\ IdentifierStr s' = "extern")
  \/ (t = tok_identifier
      /\ IdentifierStr s' <> "def" /\ IdentifierStr s' <> "extern"
      /\ IdentifierStr s' <> "")
  \/ t = tok_number
  \/ t = tok_eof
  \/ (0 <= t < 256 /\ is_punctuation t = true).
Proof.
  induction fuel as [|fuel IH]; intros s s' t Hs; rewrite getTok_fuel_unfold;
    unfold getTok_body;
    pose proof (skip_whitespace_result (stdin s) (LastChar s)) as Hws;
    pose proof (skip_whitespace_range (stdin s) _ Hs) as Hrange;
    destruct (skip_whitespace (LastChar s) (stdin s)) as [c inp];
    simpl in Hws, Hrange.
  all: destruct (isalpha c) eqn:Hal;
    [ destruct (read_identifier_acc inp (String (char_of_int c) ""))
        as [run Hrun];
      destruct (read_identifier _ _) as [[id c'] inp']; simpl in Hrun;
      destruct (String.eqb_spec id "def");
      [ intros H; simplify_eq; simpl; tauto |];
      destruct (String.eqb_spec id "extern");
      [ intros H; simplify_eq; simpl; tauto |];
      intros H; simplify_eq; simpl; right; right; left;
      repeat split; try assumption; discriminate |].
  all: destruct (is_num_char c) eqn:Hnum;
    [ destruct (read_number _ _) as [[n c'] inp'];
      intros H; simplify_eq; tauto |].
  all: destruct (c =? chr "#") eqn:Hhash;
    [ pose proof (skip_comment_range inp) as Hc;
      destruct (skip_comment inp) as [c' inp']; simpl in Hc;
      destruct (Z.eqb_spec c' EOF) as [->|Hne]; simpl
    | destruct (Z.eqb_spec c EOF) as [Heof|Heof];
      [ | destruct (getchar inp) as [c' inp'] ] ].
  all: intros H; simplify_eq; simpl; try tauto.
  all: try (apply (IH (set_lexer s c' inp') _ _ Hc H)).
  all: do 5 right; split;
    [ unfold char_or_EOF, EOF in *; lia
    | unfold is_punctuation; rewrite Hws, Hal, Hnum, Hhash;
      now apply Z.eqb_neq in Heof as -> ].
Qed.

(** X7.  What [getTok] returns, the cursor being on a character or at the
    end of the input: [tok_def] with the word ["def"], [tok_extern] with
    the word ["extern"], [tok_identifier] with another word, [tok_number],
    [tok_eof], or the code, from 0 to 255, of a character that is not white
    space, a letter, a digit, ['.'] or ['#'].  So a keyword is never an
    identifier, and white space and ['#'] are never tokens. *)
Theorem getTok_token (s : state) :
  char_or_EOF (LastChar s) ->
  (fst (getTok s) = tok_def /\ IdentifierStr (snd (getTok s)) = "def")
  \/ (fst (getTok s) = tok_extern
      /\ IdentifierStr (snd (getTok s)) = "extern")
  \/ (fst (getTok s) = tok_identifier
      /\ IdentifierStr (snd (getTok s)) <> "def"
      /\ IdentifierStr (snd (getTok s)) <> "extern"
      /\ IdentifierStr (snd (getTok s)) <> "")
  \/ fst (getTok s) = tok_number
  \/ fst (getTok s) = tok_eof
  \/ (0 <= fst (getTok s) < 256 /\ is_punctuation (fst (getTok s)) = true).
Proof.
  intros Hs. pose proof (getTok_spec s) as H. destruct (getTok s) as [t s'].
  exact (getTok_fuel_token _ _ _ _ Hs H).
Qed.

Lemma skip_whitespace_consumes (inp : string) : forall c : Z,
  (String.length (snd (skip_whitespace c inp))
   + pending (fst (skip_whitespace c inp))
   <= String.length inp + pending c)%nat
  /\ exists read, inp = (read ++ snd (skip_whitespace c inp))%string.
Proof.
  induction inp as [|a inp IH]; intros c; simpl.
  - destruct (isspace c); simpl; change (pending EOF) with 0%nat;
      (split; [lia | now exists ""]).
  - destruct (isspace c) eqn:Hc; simpl; [|split; [lia | now exists ""]].
    destruct (IH (chr a)) as [Hlen [read Hread]]. split.
    + assert (pending (chr a) = 1%nat) as Hp.
      { unfold pending. pose proof (chr_range a).
        destruct (Z.eqb_spec (chr a) EOF) as [He|]; [unfold EOF in He; lia|].
        reflexivity. }
      assert (pending c = 1%nat) as Hpc.
      { unfold pending. destruct (Z.eqb_spec c EOF) as [->|];
          [discriminate Hc | reflexivity]. }
      lia.
    + exists (String a read). now rewrite append_String, <- Hread.
Qed.

Lemma pending_le (c : Z) : (pending c <= 1)%nat.
Proof. unfold pending. destruct (c =? EOF); lia. Qed.

Lemma pending_chr (a : ascii) : pending (chr a) = 1%nat.
Proof.
  unfold pending. pose proof (chr_range a).
  destruct (Z.eqb_spec (chr a) EOF) as [He|]; [unfold EOF in He; lia|].
  reflexivity.
Qed.

Lemma read_identifier_consumes (inp : string) : forall id : string,
  (String.length (snd (read_identifier inp id))
   + pending (snd (fst (read_identifier inp id)))
   <= String.length inp)%nat
  /\ exists read, inp = (read ++ snd (read_identifier inp id))%string.
Proof.
  induction inp as [|a inp IH]; intros id; simpl.
  - split; [reflexivity | now exists ""].
  - destruct (isalnum (chr a)); simpl.
    + destruct (IH (id ++ String (char_of_int (chr a)) "")%string)
        as [Hlen [read Hread]].
      split; [lia|]. exists (String a read).
      now rewrite append_String, <- Hread.
    + rewrite pending_chr. split; [lia|]. now exists (String a "").
Qed.

Lemma read_number_consumes (inp : string) : forall NumStr : string,
  (String.length (snd (read_number inp NumStr))
   + pending (snd (fst (read_number inp NumStr)))
   <= String.length inp)%nat
  /\ exists read, inp = (read ++ snd (read_number inp NumStr))%string.
Proof.
  induction inp as [|a inp IH]; intros NumStr; simpl.
  - split; [reflexivity | now exists ""].
  - destruct (is_num_char (chr a)); simpl.
    + destruct (IH (NumStr ++ String (char_of_int (chr a)) "")%string)
        as [Hlen [read Hread]].
      split; [lia|]. exists (String a read).
      now rewrite append_String, <- Hread.
    + rewrite pending_chr. split; [lia|]. now exists (String a "").
Qed.

Lemma skip_comment_consumes (inp : string) :
  (String.length (snd (skip_comment inp)) + pending (fst (skip_comment inp))
   <= String.length inp)%nat
  /\ exists read, inp = (read ++ snd (skip_comment inp))%string.
Proof.
  induction inp as [|a inp IH]; simpl.
  - split; [reflexivity | now exists ""].
  - destruct ((chr a =? 10) || (chr a =? 13)); simpl.
    + rewrite pending_chr. split; [lia|]. now exists (String a "").
    + destruct IH as [Hlen [read Hread]].
      split; [lia|]. exists (String a read).
      now rewrite append_String, <- Hread.
Qed.

Lemma getchar_consumes (inp : string) :
  (String.length (snd (getchar inp)) + pending (fst (getchar inp))
   <= String.length inp)%nat
  /\ exists read, inp = (read ++ snd (getchar inp))%string.
Proof.
  destruct inp as [|a inp]; simpl.
  - split; [reflexivity | now exists ""].
  - rewrite pending_chr. split; [lia|]. now exists (String a "").
Qed.

Lemma append_assoc (x y z : string) :
  ((x ++ y) ++ z)%string = (x ++ (y ++ z))%string.
Proof.
  induction x as [|a x IH]; [reflexivity|].
  now rewrite !append_String, IH.
Qed.

Lemma getTok_fuel_consumes (fuel : nat) : forall (s s' : state) (t : Z),
  getTok_fuel fuel s = Some (t, s') ->
  (remaining s' <= remaining s)%nat
  /\ (t <> tok_eof -> (remaining s' < remaining s)%nat)
  /\ exists read, stdin s = (read ++ stdin s')%string.
Proof.
  unfold remaining.
  induction fuel as [|fuel IH]; intros s s' t; rewrite getTok_fuel_unfold;
    unfold getTok_body;
    destruct (skip_whitespace_consumes (stdin s) (LastChar s))
      as [Hws [rws Hrws]];
    destruct (skip_whitespace (LastChar s) (stdin s)) as [c inp];
    simpl in Hws, Hrws.
  all: destruct (isalpha c) eqn:Hal;
    [ assert (Hpc : pending c = 1%nat)
        by (unfold pending; destruct (Z.eqb_spec c EOF) as [->|];
            [discriminate Hal | reflexivity]);
      destruct (read_identifier_consumes inp (String (char_of_int c) ""))
        as [Hi [ri Hri]];
      destruct (read_identifier _ _) as [[id c'] inp']; simpl in Hi, Hri;
      intros H; repeat case_match; simplify_eq; simpl;
      (repeat split; [lia | lia |]);
      exists (rws ++ ri)%string; rewrite append_assoc; congruence |].
  all: destruct (is_num_char c) eqn:Hnum;
    [ assert (Hpc : pending c = 1%nat)
        by (unfold pending; destruct (Z.eqb_spec c EOF) as [->|];
            [discriminate Hnum | reflexivity]);
      destruct (read_number_consumes inp (String (char_of_int c) ""))
        as [Hn [rn Hrn]];
      destruct (read_number _ _) as [[n c'] inp']; simpl in Hn, Hrn;
      intros H; simplify_eq; simpl;
      (repeat split; [lia | lia |]);
      exists (rws ++ rn)%string; rewrite append_assoc; congruence |].
  all: destruct (Z.eqb_spec c (chr "#")) as [Hhash|Hhash];
    [ destruct (skip_comment_consumes inp) as [Hc [rc Hrc]];
      destruct (skip_comment inp) as [c' inp']; simpl in Hc, Hrc;
      destruct (Z.eqb_spec c' EOF) as [->|Hne]; simpl
    | destruct (Z.eqb_spec c EOF) as [->|Heof];
      [ | destruct (getchar_consumes inp) as [Hg [rg Hrg]];
          destruct (getchar inp) as [c' inp']; simpl in Hg, Hrg ] ].
  all: intros H; simplify_eq; simpl.
  all: try (repeat split; [lia | congruence |];
            first [ exists (rws ++ rc)%string; rewrite append_assoc;
                    congruence
                  | exists rws; congruence ]).
  all: try match goal with
           | H : getTok_fuel _ _ = Some _ |- _ =>
               destruct (IH _ _ _ H) as (Hle & Hlt & read & Hread);
               simpl in *;
               (repeat split;
                [lia | intros Ht; specialize (Hlt Ht); lia |]);
               exists (rws ++ rc ++ read)%string;
               rewrite !append_assoc; congruence
           end.
  all: assert (Hpc : pending t = 1%nat)
      by (unfold pending; destruct (Z.eqb_spec t EOF); [lia | reflexivity]).
  all: repeat split; [lia | lia |].
  all: exists (rws ++ rg)%string; rewrite append_assoc; congruence.
Qed.

(** X8.  [getTok] only moves forward: what is left of the input afterwards
    is the end of what was left before, the number of characters still to
    look at never grows, and it shrinks with every token but [tok_eof]. *)
Theorem getTok_consumes (s : state) :
  (remaining (snd (getTok s)) <= remaining s)%nat
  /\ (fst (getTok s) <> tok_eof ->
      (remaining (snd (getTok s)) < remaining s)%nat)
  /\ exists read, stdin s = (read ++ stdin (snd (getTok s)))%string.
Proof.
  pose proof (getTok_spec s) as H. destruct (getTok s) as [t s'].
  exact (getTok_fuel_consumes _ _ _ _ H).
Qed.

Lemma getTok_fuel_payload (fuel : nat) : forall (s s' : state) (t : Z),
  getTok_fuel fuel s = Some (t, s') ->
  (IdentifierStr s' = IdentifierStr s
   \/ t = tok_def \/ t = tok_extern \/ t = tok_identifier)
  /\ (NumVal s' = NumVal s \/ t = tok_number).
Proof.
  induction fuel as [|fuel IH]; intros s s' t; rewrite getTok_fuel_unfold;
    unfold getTok_body; intros H;
    repeat (case_match; simplify_eq; simpl in *; auto).
  all: match goal with
       | H : getTok_fuel _ _ = Some _ |- _ => apply IH in H; simpl in H; auto
       end.
Qed.

(** X14.  What the lexer leaves alone: [getTok] never changes the
    precedence table, [CurTok] or what was printed; it changes
    [IdentifierStr] only when it returns a word ([tok_identifier],
    [tok_def], [tok_extern]) and [NumVal] only when it returns
    [tok_number]. *)
Theorem getTok_frame (s : state) :
  BinopPrecedence (snd (getTok s)) = BinopPrecedence s
  /\ stderr (snd (getTok s)) = stderr s
  /\ CurTok (snd (getTok s)) = CurTok s
  /\ (IdentifierStr (snd (getTok s)) = IdentifierStr s
      \/ fst (getTok s) = tok_def \/ fst (getTok s) = tok_extern
      \/ fst (getTok s) = tok_identifier)
  /\ (NumVal (snd (getTok s)) = NumVal s \/ fst (getTok s) = tok_number).
Proof.
  pose proof (getTok_spec s) as H. destruct (getTok s) as [t s'].
  destruct (getTok_fuel_frame _ _ _ _ H) as (H1 & H2 & H3).
  destruct (getTok_fuel_payload _ _ _ _ H) as (H4 & H5).
  simpl. tauto.
Qed.

End LexerMore.

(** * What the parser prints *)

Section Diagnostics.

Variable prog : program.

Lemma GetTokPrecedence_stderr (s s' : state) (p : Z) :
  GetTokPrecedence prog s = (p, s') -> stderr s' = stderr s.
Proof.
  intros E. pose proof (GetTokPrecedence_state prog s) as H.
  rewrite E in H. simpl in H. rewrite H.
  now destruct (precedence_guard prog (CurTok s)).
Qed.

Lemma GetTokPrecedence_lexer (s s' : state) (p : Z) :
  GetTokPrecedence prog s = (p, s') ->
  CurTok s' = CurTok s /\ LastChar s' = LastChar s /\ stdin s' = stdin s.
Proof.
  intros E. pose proof (GetTokPrecedence_state prog s) as H.
  rewrite E in H. simpl in H. rewrite H.
  now destruct (precedence_guard prog (CurTok s)).
Qed.

Ltac reports_done :=
  unfold reports in *; simpl in *;
  repeat match goal with
         | H : GetTokPrecedence _ _ = _ |- _ =>
             apply GetTokPrecedence_stderr in H
         | H : exists _, _ |- _ => destruct H as (? & ? & ?)
         end;
  rewrite ?getNextToken_stderr in *;
  first [ congruence
        | eexists; split;
          [| f_equal; first [reflexivity | congruence] ];
          unfold expression_errors, prototype_errors; simpl;
          repeat first [left; reflexivity | right]
        | eexists; split; [eassumption | congruence] ].

Lemma Parse_reports_all (n : nat) :
  (forall s r s', ParsePrimary prog n s = Some (r, s') ->
     reports expression_errors s s' r)
  /\ (forall s r s', ParseParenExpr prog n s = Some (r, s') ->
        reports expression_errors s s' r)
  /\ (forall s r s', ParseIdentifierExpr prog n s = Some (r, s') ->
        reports expression_errors s s' r)
  /\ (forall s Args r s',
        ParseIdentifierExpr_loop prog n s Args = Some (r, s') ->
        reports expression_errors s s' r)
  /\ (forall ExprPrec LHS s r s',
        ParseBinOpRHS prog n ExprPrec LHS s = Some (r, s') ->
        reports expression_errors s s' r)
  /\ (forall s r s', ParseExpression prog n s = Some (r, s') ->
        reports expression_errors s s' r).
Proof.
  induction n as [|n IH].
  - repeat split; intros; discriminate.
  - destruct IH as (IH1 & IH2 & IH3 & IH4 & IH5 & IH6).
    repeat split; intros; repeat reports_step.
    all: try reports_done.
    all: match goal with
         | H : _ = Some (?r, _) |- reports _ _ _ ?r =>
             reports_IH H; destruct r; reports_done
         end.
Qed.

Lemma ParsePrototype_loop_stderr (n : nat) :
  forall (s : state) (ArgNames : list string) r s',
  ParsePrototype_loop n s ArgNames = Some (r, s') -> stderr s' = stderr s.
Proof.
  induction n as [|n IH]; intros s ArgNames r s' H; [discriminate|].
  simpl in H. destruct (CurTok (getNextToken s) =? tok_identifier).
  - rewrite (IH _ _ _ _ H). apply getNextToken_stderr.
  - simplify_eq. apply getNextToken_stderr.
Qed.

Lemma ParsePrototype_reports (n : nat) (s : state) r s' :
  ParsePrototype n s = Some (r, s') -> reports prototype_errors s s' r.
Proof.
  unfold ParsePrototype, LogError. intros H.
  destruct (negb (CurTok s =? tok_identifier)); [simplify_eq; reports_done|].
  destruct (negb (CurTok (getNextToken s) =? chr "("));
    [simplify_eq; reports_done|].
  destruct (ParsePrototype_loop n (getNextToken s) [])
    as [[ArgNames s1]|] eqn:E; [|discriminate H].
  apply ParsePrototype_loop_stderr in E. simpl in H.
  destruct (negb (CurTok s1 =? chr ")")); simplify_eq; reports_done.
Qed.

Lemma reports_weaken {A : Type} (msgs msgs' : list string) (s s' : state)
    (r : option A) :
  (forall m, In m msgs -> In m msgs') ->
  reports msgs s s' r -> reports msgs' s s' r.
Proof.
  intros Hsub. destruct r; simpl; [auto|].
  intros (m & Hm & Hs). eauto.
Qed.

(** X9.  A parsing function prints nothing when it returns a tree, and
    exactly one diagnostic when it returns null: the failure of an inner
    parse is passed on without another message.  The diagnostic is one of
    the three of the expression parser or of the three of the prototype
    parser. *)
Theorem Parse_reports :
  (forall fuel s r s',
     ParseExpression prog fuel s = Some (r, s') ->
     reports expression_errors s s' r)
  /\ (forall fuel s r s',
        ParsePrototype fuel s = Some (r, s') ->
        reports prototype_errors s s' r)
  /\ (forall fuel s r s',
        ParseExtern fuel s = Some (r, s') ->
        reports prototype_errors s s' r)
  /\ (forall fuel s r s',
        ParseDefinition prog fuel s = Some (r, s') ->
        reports (prototype_errors ++ expression_errors) s s' r)
  /\ (forall fuel s r s',
        ParseTopLevelExpr prog fuel s = Some (r, s') ->
        reports expression_errors s s' r).
Proof.
  assert (HE : forall fuel s r s',
             ParseExpression prog fuel s = Some (r, s') ->
             reports expression_errors s s' r)
    by (intros fuel; apply (Parse_reports_all fuel)).
  split; [exact HE|].
  split; [exact ParsePrototype_reports|].
  split; [|split].
  - intros fuel s r s' H. unfold ParseExtern in H.
    apply ParsePrototype_reports in H.
    destruct r; simpl in *; now rewrite getNextToken_stderr in H.
  - intros fuel s r s' H. unfold ParseDefinition in H.
    destruct (ParsePrototype fuel (getNextToken s)) as [[P s1]|] eqn:EP;
      [|discriminate H].
    apply ParsePrototype_reports in EP. simpl in H.
    destruct P as [P|]; simpl in EP; rewrite getNextToken_stderr in EP.
    + destruct (ParseExpression prog fuel s1) as [[E s2]|] eqn:EE;
        [|discriminate H].
      apply HE in EE. simpl in H.
      destruct E; simplify_eq; simpl in *; [congruence|].
      destruct EE as (m & Hm & Hs). exists m.
      split; [simpl in *; tauto | congruence].
    + simplify_eq. simpl. destruct EP as (m & Hm & Hs). exists m.
      split; [simpl in *; tauto | exact Hs].
  - intros fuel s r s' H. unfold ParseTopLevelExpr in H.
    destruct (ParseExpression prog fuel s) as [[E s1]|] eqn:EE;
      [|discriminate H].
    apply HE in EE. simpl in H. destruct E; now simplify_eq.
Qed.

End Diagnostics.

(** * The operators of a parsed tree *)

Section Operators.

Variable prog : program.
Variable s0 : state.

Local Abbreviation m0 := (BinopPrecedence s0).

Lemma operators_registered_number (v : double) :
  operators_registered m0 (NumberExprAST v).
Proof. constructor. Qed.

Lemma operators_registered_variable (x : string) :
  operators_registered m0 (VariableExprAST x).
Proof. constructor. Qed.

Lemma operators_registered_binary (Op : ascii) (L R : ExprAST) :
  registered m0 Op -> operators_registered m0 L ->
  operators_registered m0 R ->
  operators_registered m0 (BinaryExprAST Op L R).
Proof.
  intros HOp HL HR. unfold operators_registered. simpl.
  constructor; [exact HOp|]. apply Forall_app. now split.
Qed.

Lemma operators_registered_call (Callee : string) (Args : list ExprAST) :
  all_operators_registered m0 Args ->
  operators_registered m0 (CallExprAST Callee Args).
Proof. exact (fun H => H). Qed.

Lemma all_operators_registered_nil : all_operators_registered m0 [].
Proof. constructor. Qed.

Lemma all_operators_registered_snoc (Args : list ExprAST) (e : ExprAST) :
  all_operators_registered m0 Args -> operators_registered m0 e ->
  all_operators_registered m0 (Args ++ [e]).
Proof.
  unfold all_operators_registered, operators_registered. intros HA He.
  rewrite List.map_app, List.concat_app. apply Forall_app. split; [exact HA|].
  simpl. now rewrite app_nil_r.
Qed.

(** A token to which [GetTokPrecedence] gives a precedence that is not
    negative is an operator of the table. *)
Lemma GetTokPrecedence_operator (s s' : state) (p : Z) :
  GetTokPrecedence prog s = (p, s') ->
  keeps_table s0 s -> 0 <= p ->
  registered m0 (char_of_int (CurTok s')) /\ 0 < p.
Proof.
  intros E Hk Hp.
  pose proof (GetTokPrecedence_value prog s) as Hv.
  destruct (GetTokPrecedence_lexer prog s s' p E) as (Hc & _).
  rewrite E in Hv. simpl in Hv. rewrite Hc.
  destruct (precedence_guard prog (CurTok s)); [lia|].
  destruct (BinopPrecedence s !! char_of_int (CurTok s)) as [v|] eqn:Hl;
    [|lia].
  destruct (Z.ltb_spec 0 v); [|lia]. subst p. split; [|assumption].
  exists v. split; [|assumption].
  destruct (Hk (char_of_int (CurTok s))) as [Heq|[_ Hz]]; [congruence|].
  rewrite Hl in Hz. injection Hz as ->. lia.
Qed.

Ltac ops_step :=
  try unfold ParseNumberExpr, LogError in *; simpl in *;
  match goal with
  | H : None = Some _ |- _ => discriminate H
  | H : Some _ = Some _ |- _ => simplify_eq
  | H : (?c ≫= _) = Some _ |- _ =>
      lazymatch c with
      | (if ?b then _ else _) => destruct b eqn:?
      | Some _ => fail
      | _ => destruct c as [[? ?]|] eqn:?; [|discriminate H]
      end
  | H : context [match ?x with _ => _ end] |- _ => destruct x eqn:?
  end.

Create HintDb ops.
Local Hint Resolve operators_registered_number operators_registered_variable
  operators_registered_binary operators_registered_call
  all_operators_registered_nil all_operators_registered_snoc : ops.
Local Hint Resolve keeps_table_refl keeps_table_getNextToken
  keeps_table_print keeps_table_GetTokPrecedence : ops.
Local Hint Extern 1 (_ <= _) => lia : ops.

Ltac ops_facts :=
  repeat match goal with
         | G : GetTokPrecedence prog ?s = (?p, ?s'),
           L : (?p <? ?q) = false |- _ =>
             let Hk := fresh "Hk" in
             assert (Hk : keeps_table s0 s) by eauto 12 with ops;
             destruct (GetTokPrecedence_operator s s' p G Hk
                         ltac:(apply Z.ltb_ge in L; lia));
             clear L
         end.

Ltac table_facts :=
  repeat match goal with
         | E : _ = Some (_, ?s2) |- _ =>
             lazymatch goal with
             | _ : keeps_table s0 s2 |- _ => fail
             | _ => assert (keeps_table s0 s2) by eauto 6 with ops
             end
         | G : GetTokPrecedence prog _ = (_, ?s2) |- _ =>
             lazymatch goal with
             | _ : keeps_table s0 s2 |- _ => fail
             | _ => assert (keeps_table s0 s2) by eauto 6 with ops
             end
         end.

Lemma Parse_operators_all (n : nat) :
  (forall s e s', ParsePrimary prog n s = Some (Some e, s') ->
     keeps_table s0 s -> operators_registered m0 e)
  /\ (forall s e s', ParseParenExpr prog n s = Some (Some e, s') ->
        keeps_table s0 s -> operators_registered m0 e)
  /\ (forall s e s', ParseIdentifierExpr prog n s = Some (Some e, s') ->
        keeps_table s0 s -> operators_registered m0 e)
  /\ (forall s Args l s',
        ParseIdentifierExpr_loop prog n s Args = Some (Some l, s') ->
        keeps_table s0 s -> all_operators_registered m0 Args ->
        all_operators_registered m0 l)
  /\ (forall ExprPrec LHS s e s',
        ParseBinOpRHS prog n ExprPrec LHS s = Some (Some e, s') ->
        keeps_table s0 s -> 0 <= ExprPrec -> operators_registered m0 LHS ->
        operators_registered m0 e)
  /\ (forall s e s', ParseExpression prog n s = Some (Some e, s') ->
        keeps_table s0 s -> operators_registered m0 e).
Proof.
  induction n as [|n IH].
  - repeat split; intros; discriminate.
  - destruct IH as (IH1 & IH2 & IH3 & IH4 & IH5 & IH6).
    destruct (Parse_table_all prog n) as (T1 & T2 & T3 & T4 & T5 & T6).
    repeat split; intros; repeat ops_step; table_facts; ops_facts.
    all: eauto 10 with ops.
Qed.

End Operators.

Section OperatorsOfParse.

Variable prog : program.

(** X10.  Every operator of a tree that the parser returns has a positive
    precedence in the table the parse started with: [ParseBinOpRHS] builds
    a [BinaryExprAST] only for a token to which [GetTokPrecedence] gave
    one. *)
Theorem Parse_operators :
  (forall fuel s e s',
     ParseExpression prog fuel s = Some (Some e, s') ->
     operators_registered (BinopPrecedence s) e)
  /\ (forall fuel s F s',
        ParseDefinition prog fuel s = Some (Some F, s') ->
        operators_registered (BinopPrecedence s) (Body F))
  /\ (forall fuel s F s',
        ParseTopLevelExpr prog fuel s = Some (Some F, s') ->
        operators_registered (BinopPrecedence s) (Body F)).
Proof.
  assert (HE : forall s0 fuel s e s',
             ParseExpression prog fuel s = Some (Some e, s') ->
             keeps_table s0 s ->
             operators_registered (BinopPrecedence s0) e)
    by (intros s0 fuel; apply (Parse_operators_all prog s0 fuel)).
  repeat split.
  - intros fuel s e s' H. eapply HE; [exact H | apply keeps_table_refl].
  - intros fuel s F s' H. unfold ParseDefinition in H.
    destruct (ParsePrototype fuel (getNextToken s)) as [[[P|] s1]|] eqn:EP;
      simpl in H; try discriminate H.
    destruct (ParseExpression prog fuel s1) as [[[E|] s2]|] eqn:EE;
      simpl in H; try discriminate H.
    injection H as <- <-. simpl. eapply HE; [exact EE|].
    eapply ParsePrototype_table; [exact EP|].
    apply keeps_table_getNextToken, keeps_table_refl.
  - intros fuel s F s' H. unfold ParseTopLevelExpr in H.
    destruct (ParseExpression prog fuel s) as [[[E|] s2]|] eqn:EE;
      simpl in H; try discriminate H.
    injection H as <- <-. simpl.
    eapply HE; [exact EE | apply keeps_table_refl].
Qed.

End OperatorsOfParse.

(** * Termination *)

Section Termination.

Variable prog : program.

Lemma getNextToken_unread (s : state) :
  (unread (getNextToken s) <= unread s)%nat
  /\ (CurTok s <> tok_eof \/ CurTok (getNextToken s) <> tok_eof ->
      (unread (getNextToken s) < unread s)%nat).
Proof.
  destruct (getTok_consumes s) as (Hle & Hlt & _).
  unfold unread, getNextToken. destruct (getTok s) as [t s']. simpl in *.
  change (remaining (set_CurTok s' t)) with (remaining s').
  destruct (Z.eqb_spec t tok_eof) as [->|Ht],
    (Z.eqb_spec (CurTok s) tok_eof) as [Hs|Hs].
  - split; [lia|]. intros [H|H]; congruence.
  - split; lia.
  - specialize (Hlt Ht). split; lia.
  - specialize (Hlt Ht). split; lia.
Qed.

Lemma GetTokPrecedence_unread (s s' : state) (p : Z) :
  GetTokPrecedence prog s = (p, s') ->
  unread s' = unread s /\ CurTok s' = CurTok s.
Proof.
  intros E. destruct (GetTokPrecedence_lexer prog s s' p E) as (Hc & Hl & Hi).
  unfold unread, remaining. now rewrite Hc, Hl, Hi.
Qed.

Lemma halts_weaken {A : Type} (s1 s : state)
    (f : option (option A * state)) :
  halts s1 f -> (unread s1 <= unread s)%nat -> halts s f.
Proof. intros (r & s' & E & Hle) H. exists r, s'. split; [exact E | lia]. Qed.

Lemma halts_advances {A : Type} (s1 s : state)
    (f : option (option A * state)) :
  halts s1 f -> (unread s1 < unread s)%nat -> advances s f.
Proof.
  intros (r & s' & E & Hle) H. exists r, s'. split; [exact E|]. split; lia.
Qed.

Lemma advances_weaken {A : Type} (s1 s : state)
    (f : option (option A * state)) :
  advances s1 f -> (unread s1 <= unread s)%nat -> advances s f.
Proof.
  intros (r & s' & E & Hle & Hlt) H. exists r, s'.
  split; [exact E|]. split; [lia|]. intros Hr. specialize (Hlt Hr). lia.
Qed.

Lemma advances_halts {A : Type} (s : state)
    (f : option (option A * state)) :
  advances s f -> halts s f.
Proof. intros (r & s' & E & Hle & _). now exists r, s'. Qed.

Ltac token_known :=
  match goal with
  | H : (CurTok ?s =? _) = true |- CurTok ?s <> tok_eof =>
      let E := fresh in
      intros E; rewrite E in H; discriminate H
  end.

Ltac next_token s :=
  let Hle := fresh "Hle" in
  let Hlt := fresh "Hlt" in
  pose proof (getNextToken_unread s) as [Hle Hlt].

Ltac done_halts :=
  first [ eexists _, _; split; [reflexivity|]; simpl;
          change (unread (print ?s _)) with (unread s) in *; lia
        | eexists _, _; split; [reflexivity|]; split;
          [ change (unread (print ?s _)) with (unread s) in *; lia
          | intros Hr; first [ now contradiction Hr | lia ] ] ].

(** The parser always returns: with a fuel of four times what is unread,
    and a little more, every parsing function returns, and a function
    that returns a tree has consumed at least one token. *)
Lemma Parse_halts_all (n : nat) :
  (forall s, (4 * unread s + 2 <= n)%nat ->
     advances s (ParsePrimary prog n s))
  /\ (forall s, CurTok s <> tok_eof -> (4 * unread s + 1 <= n)%nat ->
        advances s (ParseParenExpr prog n s))
  /\ (forall s, CurTok s <> tok_eof -> (4 * unread s + 1 <= n)%nat ->
        advances s (ParseIdentifierExpr prog n s))
  /\ (forall s Args, (4 * unread s + 4 <= n)%nat ->
        halts s (ParseIdentifierExpr_loop prog n s Args))
  /\ (forall ExprPrec LHS s, (4 * unread s + 3 <= n)%nat ->
        halts s (ParseBinOpRHS prog n ExprPrec LHS s))
  /\ (forall s, (4 * unread s + 3 <= n)%nat ->
        advances s (ParseExpression prog n s)).
Proof.
  induction n as [|n IH].
  - repeat split; intros; lia.
  - destruct IH as (IH1 & IH2 & IH3 & IH4 & IH5 & IH6).
    repeat split.
    + (* ParsePrimary *)
      intros s Hn. simpl.
      destruct (CurTok s =? tok_identifier) eqn:Hid;
        [apply IH3; [token_known | lia]|].
      destruct (CurTok s =? tok_number) eqn:Hnum.
      { next_token s. unfold ParseNumberExpr.
        assert (CurTok s <> tok_eof) by token_known.
        eexists _, _. split; [reflexivity|]. split; [lia|]. intros _.
        apply Hlt. now left. }
      destruct (CurTok s =? chr "(") eqn:Hpar;
        [apply IH2; [token_known | lia]|].
      unfold LogError. done_halts.
    + (* ParseParenExpr *)
      intros s Hs Hn. simpl. next_token s.
      assert (Hlt' : (unread (getNextToken s) < unread s)%nat)
        by (apply Hlt; now left).
      destruct (IH6 (getNextToken s) ltac:(lia))
        as (r & s1 & E & Hle1 & Hlt1).
      rewrite E. simpl. destruct r as [V|]; [|done_halts].
      destruct (negb (CurTok s1 =? chr ")")); unfold LogError;
        [done_halts|].
      next_token s1. eexists _, _. split; [reflexivity|]. split; lia.
    + (* ParseIdentifierExpr *)
      intros s Hs Hn. simpl. next_token s.
      assert (Hlt' : (unread (getNextToken s) < unread s)%nat)
        by (apply Hlt; now left).
      destruct (negb (CurTok (getNextToken s) =? chr "(")) eqn:Hpar.
      { eexists _, _. split; [reflexivity|]. split; lia. }
      next_token (getNextToken s).
      destruct (negb (CurTok (getNextToken (getNextToken s)) =? chr ")")).
      * destruct (IH4 (getNextToken (getNextToken s)) [] ltac:(lia))
          as (r & s1 & E & Hle1).
        rewrite E. simpl. destruct r as [Args|]; [|done_halts].
        next_token s1. eexists _, _. split; [reflexivity|]. split; lia.
      * simpl. next_token (getNextToken (getNextToken s)).
        eexists _, _. split; [reflexivity|]. split; lia.
    + (* ParseIdentifierExpr_loop *)
      intros s Args Hn. simpl.
      destruct (IH6 s ltac:(lia)) as (r & s1 & E & Hle1 & Hlt1).
      rewrite E. simpl. destruct r as [Arg|]; [|done_halts].
      assert (Hlt1' : (unread s1 < unread s)%nat) by now apply Hlt1.
      destruct (CurTok s1 =? chr ")"); [done_halts|].
      destruct (negb (CurTok s1 =? chr ",")); unfold LogError;
        [done_halts|].
      next_token s1.
      apply (halts_weaken (getNextToken s1)); [|lia]. apply IH4. lia.
    + (* ParseBinOpRHS *)
      intros ExprPrec LHS s Hn. simpl.
      destruct (GetTokPrecedence prog s) as [TokPrec s1] eqn:G.
      destruct (GetTokPrecedence_unread s s1 TokPrec G) as [Hu1 _].
      destruct (TokPrec <? ExprPrec); [done_halts|].
      next_token s1.
      destruct (IH1 (getNextToken s1) ltac:(lia))
        as (r & s2 & E & Hle2 & Hlt2).
      rewrite E. simpl. destruct r as [RHS|]; [|done_halts].
      assert (Hlt2' : (unread s2 < unread (getNextToken s1))%nat)
        by now apply Hlt2.
      destruct (GetTokPrecedence prog s2) as [NextPrec s3] eqn:G2.
      destruct (GetTokPrecedence_unread s2 s3 NextPrec G2) as [Hu3 _].
      destruct (TokPrec <? NextPrec).
      * destruct (IH5 (TokPrec + 1) RHS s3 ltac:(lia))
          as (r & s4 & E4 & Hle4).
        rewrite E4. simpl. destruct r as [RHS'|]; [|done_halts].
        apply (halts_weaken s4); [|lia]. apply IH5. lia.
      * simpl. apply (halts_weaken s3); [|lia]. apply IH5. lia.
    + (* ParseExpression *)
      intros s Hn. simpl.
      destruct (IH1 s ltac:(lia)) as (r & s1 & E & Hle1 & Hlt1).
      rewrite E. simpl. destruct r as [LHS|]; [|done_halts].
      assert (Hlt1' : (unread s1 < unread s)%nat) by now apply Hlt1.
      apply (halts_advances s1); [|lia]. apply IH5. lia.
Qed.

Lemma ParsePrototype_loop_halts (n : nat) :
  forall (s : state) (ArgNames : list string),
  (unread s + 1 <= n)%nat ->
  exists l s', ParsePrototype_loop n s ArgNames = Some (l, s')
               /\ (unread s' <= unread s)%nat.
Proof.
  induction n as [|n IH]; intros s ArgNames Hn; [lia|].
  simpl. next_token s.
  destruct (CurTok (getNextToken s) =? tok_identifier) eqn:Hid.
  - assert (Hne : CurTok (getNextToken s) <> tok_eof) by token_known.
    assert ((unread (getNextToken s) < unread s)%nat)
      by (apply Hlt; now right).
    destruct (IH (getNextToken s)
                (ArgNames ++ [IdentifierStr (getNextToken s)])%list
                ltac:(lia))
      as (l & s' & E & Hle').
    exists l, s'. split; [exact E | lia].
  - eexists _, _. split; [reflexivity | lia].
Qed.

Lemma ParsePrototype_halts (n : nat) (s : state) :
  (unread s + 1 <= n)%nat -> advances s (ParsePrototype n s).
Proof.
  intros Hn. unfold ParsePrototype, LogError.
  destruct (CurTok s =? tok_identifier) eqn:Hid; simpl; [|done_halts].
  assert (Hne : CurTok s <> tok_eof) by token_known.
  next_token s.
  assert ((unread (getNextToken s) < unread s)%nat) by (apply Hlt; now left).
  destruct (negb (CurTok (getNextToken s) =? chr "(")); [done_halts|].
  destruct (ParsePrototype_loop_halts n (getNextToken s) [] ltac:(lia))
    as (l & s1 & E & Hle1).
  rewrite E. simpl.
  destruct (negb (CurTok s1 =? chr ")")); [done_halts|].
  next_token s1. eexists _, _. split; [reflexivity|]. split; lia.
Qed.

(** After [def] or [extern], the parse returns and the keyword is
    consumed, whatever follows. *)
Lemma ParseExtern_halts (n : nat) (s : state) :
  CurTok s <> tok_eof -> (unread s + 1 <= n)%nat ->
  exists r s', ParseExtern n s = Some (r, s')
               /\ (unread s' < unread s)%nat.
Proof.
  intros Hs Hn. unfold ParseExtern. next_token s.
  assert ((unread (getNextToken s) < unread s)%nat) by (apply Hlt; now left).
  destruct (ParsePrototype_halts n (getNextToken s) ltac:(lia))
    as (r & s' & E & Hle' & _).
  exists r, s'. split; [exact E | lia].
Qed.

Lemma ParseExpression_halts (n : nat) (s : state) :
  (4 * unread s + 3 <= n)%nat -> advances s (ParseExpression prog n s).
Proof. apply (Parse_halts_all n). Qed.

Lemma ParseDefinition_halts (n : nat) (s : state) :
  CurTok s <> tok_eof -> (4 * unread s + 3 <= n)%nat ->
  exists r s', ParseDefinition prog n s = Some (r, s')
               /\ (unread s' < unread s)%nat.
Proof.
  intros Hs Hn. unfold ParseDefinition. next_token s.
  assert ((unread (getNextToken s) < unread s)%nat) by (apply Hlt; now left).
  destruct (ParsePrototype_halts n (getNextToken s) ltac:(lia))
    as (P & s1 & E & Hle1 & _).
  rewrite E. simpl. destruct P as [P|].
  - destruct (ParseExpression_halts n s1 ltac:(lia))
      as (r & s2 & E2 & Hle2 & _).
    rewrite E2. simpl.
    destruct r; eexists _, _; (split; [reflexivity | lia]).
  - eexists _, _. split; [reflexivity | lia].
Qed.

Lemma ParseTopLevelExpr_halts (n : nat) (s : state) :
  (4 * unread s + 3 <= n)%nat -> advances s (ParseTopLevelExpr prog n s).
Proof.
  intros Hn. unfold ParseTopLevelExpr.
  destruct (ParseExpression_halts n s Hn) as (r & s1 & E & Hle1 & Hlt1).
  rewrite E. simpl. destruct r as [e|].
  - eexists _, _. split; [reflexivity|]. split; [lia|].
    intros _. apply Hlt1. discriminate.
  - eexists _, _. split; [reflexivity|]. split; [lia|].
    intros Hr. now contradiction Hr.
Qed.

(** X11.  The parser always returns.  With a fuel of four times what is
    unread plus three, [ParseExpression], [ParseTopLevelExpr],
    [ParseDefinition] and [ParseExtern] return; they never give anything
    back to the input; an expression that is parsed has consumed at least
    one token, and so has every parse that started on [def] or
    [extern]. *)
Theorem Parse_terminates (fuel : nat) (s : state) :
  (4 * unread s + 3 <= fuel)%nat ->
  advances s (ParseExpression prog fuel s)
  /\ advances s (ParseTopLevelExpr prog fuel s)
  /\ halts s (ParseDefinition prog fuel s)
  /\ halts s (ParseExtern fuel s)
  /\ (CurTok s <> tok_eof ->
      (exists r s', ParseDefinition prog fuel s = Some (r, s')
                    /\ (unread s' < unread s)%nat)
      /\ (exists r s', ParseExtern fuel s = Some (r, s')
                       /\ (unread s' < unread s)%nat)).
Proof.
  intros Hn.
  split; [now apply ParseExpression_halts|].
  split; [now apply ParseTopLevelExpr_halts|].
  assert (Hd : halts s (ParseDefinition prog fuel s)).
  { unfold ParseDefinition. next_token s.
    destruct (ParsePrototype_halts fuel (getNextToken s) ltac:(lia))
      as (P & s1 & E & Hle1 & _).
    rewrite E. simpl. destruct P as [P|]; [|done_halts].
    destruct (ParseExpression_halts fuel s1 ltac:(lia))
      as (r & s2 & E2 & Hle2 & _).
    rewrite E2. simpl. destruct r; done_halts. }
  assert (He : halts s (ParseExtern fuel s)).
  { unfold ParseExtern. next_token s.
    apply (halts_weaken (getNextToken s)); [|lia].
    apply advances_halts, ParsePrototype_halts. lia. }
  repeat split; try assumption.
  - now apply ParseDefinition_halts.
  - apply ParseExtern_halts; [assumption | lia].
Qed.

End Termination.

(** * Termination of the driver *)

Section DriverTermination.

Lemma MainLoop_switch_eof (tok : Z) :
  MainLoop_switch tok = case_eof <-> tok = tok_eof.
Proof.
  unfold MainLoop_switch.
  destruct (Z.eqb_spec tok tok_eof) as [->|Hne]; [tauto|].
  split; [|contradiction].
  destruct (tok =? chr ";"), (tok =? tok_def); discriminate.
Qed.

(** One round of [MainLoop] away from the end of the input: the handler
    returns, and afterwards less is unread or the input is at its end. *)
Lemma Handle_halts (n : nat) (s : state) :
  CurTok s <> tok_eof -> (4 * unread s + 3 <= n)%nat ->
  (exists s', HandleDefinition n s = Some s'
              /\ (unread s' < unread s)%nat)
  /\ (exists s', HandleExtern n s = Some s' /\ (unread s' < unread s)%nat)
  /\ (exists s', HandleTopLevelExpression n s = Some s'
                 /\ (unread s' <= unread s)%nat
                 /\ ((unread s' < unread s)%nat \/ CurTok s' = tok_eof)).
Proof.
  intros Hs Hn. repeat split.
  - unfold HandleDefinition.
    destruct (ParseDefinition_halts main_cpp n s Hs Hn)
      as (r & s1 & E & Hlt1).
    rewrite E. simpl. destruct r as [F|].
    + eexists. split; [reflexivity|].
      change (unread (print s1 _)) with (unread s1). lia.
    + pose proof (getNextToken_unread s1) as [Hle Hlt].
      eexists. split; [reflexivity | lia].
  - unfold HandleExtern.
    destruct (ParseExtern_halts n s Hs ltac:(lia)) as (r & s1 & E & Hlt1).
    rewrite E. simpl. destruct r as [P|].
    + eexists. split; [reflexivity|].
      change (unread (print s1 _)) with (unread s1). lia.
    + pose proof (getNextToken_unread s1) as [Hle Hlt].
      eexists. split; [reflexivity | lia].
  - unfold HandleTopLevelExpression.
    destruct (ParseTopLevelExpr_halts main_cpp n s Hn)
      as (r & s1 & E & Hle1 & Hlt1).
    rewrite E. simpl. destruct r as [F|].
    + eexists. split; [reflexivity|].
      change (unread (print s1 _)) with (unread s1).
      split; [lia|]. left. apply Hlt1. discriminate.
    + pose proof (getNextToken_unread s1) as [Hle Hlt].
      eexists. split; [reflexivity|]. split; [lia|].
      destruct (Z.eq_dec (CurTok (getNextToken s1)) tok_eof) as [He|He];
        [now right|].
      left. assert ((unread (getNextToken s1) < unread s1)%nat)
        by (apply Hlt; now right). lia.
Qed.

Lemma MainLoop_halts (n : nat) : forall s : state,
  (CurTok s = tok_eof /\ (1 <= n)%nat) \/ (4 * unread s + 6 <= n)%nat ->
  exists s', MainLoop n s = Some s' /\ CurTok s' = tok_eof.
Proof.
  induction n as [|n IH]; intros s Hn; [lia|].
  simpl. destruct (MainLoop_switch (CurTok s)) eqn:Hsw.
  { apply MainLoop_switch_eof in Hsw. eexists. split; [reflexivity|].
    exact Hsw. }
  all: assert (Hne : CurTok s <> tok_eof)
    by (intros He; apply MainLoop_switch_eof in He; congruence).
  all: destruct Hn as [[He _]|Hn]; [contradiction|].
  all: change (CurTok s) with (CurTok (print s Ready)) in Hne.
  all: change (unread s) with (unread (print s Ready)) in Hn.
  - pose proof (getNextToken_unread (print s Ready)) as [Hle Hlt].
    assert ((unread (getNextToken (print s Ready))
             < unread (print s Ready))%nat) by (apply Hlt; now left).
    apply IH. right. lia.
  - destruct (Handle_halts n (print s Ready) Hne ltac:(lia))
      as ((s1 & E & Hlt1) & _).
    rewrite E. simpl. apply IH. right. lia.
  - destruct (Handle_halts n (print s Ready) Hne ltac:(lia))
      as (_ & _ & (s1 & E & Hle1 & [Hlt1|He1])).
    + rewrite E. simpl. apply IH. right. lia.
    + rewrite E. simpl. apply IH. left. split; [exact He1 | lia].
Qed.

Lemma unread_start (input : string) :
  (unread (start input) <= 2 * String.length input + 3)%nat.
Proof.
  unfold start.
  match goal with
  | |- (unread (getNextToken ?s) <= _)%nat =>
      pose proof (getNextToken_unread s) as [Hle _];
      assert (Hs : unread s = (2 * (String.length input + 1) + 1)%nat)
        by reflexivity
  end.
  lia.
Qed.

(** X12.  The driver of [src/main.cpp] terminates on every input: [main]
    returns, with a fuel of eight times the length of the input plus
    eighteen, and it returns at the end of the input. *)
Theorem main_terminates (input : string) (k : nat) :
  exists s' : state,
    main (8 * String.length input + 18 + k) input = Some s'
    /\ CurTok s' = tok_eof.
Proof.
  unfold main. apply MainLoop_halts. right.
  pose proof (unread_start input). lia.
Qed.

(** X13.  On an input of white space and comments only, the driver of
    [src/main.cpp] parses nothing and reports nothing: it prints its prompt
    twice and returns. *)
Theorem main_blank (input : string) (k : nat) :
  blank false input = true ->
  stderr <$> main (1 + k) input = Some [Ready; Ready].
Proof.
  intros Hb. unfold main, start.
  match goal with
  | |- context [getNextToken ?s] =>
      assert (Hg : getNextToken s = set_CurTok (set_lexer s EOF "") tok_eof)
        by (unfold getNextToken;
            now rewrite (getTok_blank s eq_refl Hb))
  end.
  rewrite Hg. reflexivity.
Qed.

End DriverTermination.

(** * [src/main.cpp] parses no binary operator *)

Section MainCppOperators.

Lemma default_state_getNextToken (s : state) :
  default_state s -> default_state (getNextToken s).
Proof.
  intros (Hc & Ht & Hz). destruct (getNextToken_range s Hc) as [Ht' Hc'].
  split; [exact Hc'|]. split; [exact Ht'|]. now rewrite getNextToken_table.
Qed.

Lemma default_state_print (s : state) (o : output) :
  default_state s -> default_state (print s o).
Proof. exact (fun H => H). Qed.

Lemma default_state_GetTokPrecedence (prog : program) (s s' : state) (p : Z) :
  GetTokPrecedence prog s = (p, s') -> default_state s -> default_state s'.
Proof.
  intros E (Hc & Ht & Hz).
  destruct (GetTokPrecedence_lexer prog s s' p E) as (H1 & H2 & _).
  split; [now rewrite H2|]. split; [now rewrite H1|].
  eapply zero_extends_trans; [exact Hz|].
  pose proof (GetTokPrecedence_zero_extends prog s) as H. now rewrite E in H.
Qed.

Lemma default_state_start (input : string) : default_state (start input).
Proof.
  destruct (start_range input) as [Ht Hc].
  split; [exact Hc|]. split; [exact Ht|].
  rewrite start_table. apply zero_extends_refl.
Qed.

Lemma no_operators_snoc (Args : list ExprAST) (e : ExprAST) :
  List.concat (List.map operators Args) = [] -> operators e = [] ->
  List.concat (List.map operators (Args ++ [e])) = [].
Proof.
  intros HA He. rewrite List.map_app, List.concat_app, HA. simpl.
  now rewrite He.
Qed.

Create HintDb default_state.
Local Hint Resolve default_state_getNextToken default_state_print
  : default_state.

Ltac main_cpp_IH E :=
  match goal with
  | IH : forall _, _ |- _ =>
      first [ destruct (IH _ _ _ E ltac:(eauto 6 with default_state))
                as [? ?]
            | destruct (IH _ _ _ _ E ltac:(eauto 6 with default_state)
                          ltac:(first [ assumption | reflexivity
                                      | now apply no_operators_snoc ]))
                as [? ?]
            | destruct (IH _ _ _ _ _ E ltac:(eauto 6 with default_state)
                          ltac:(lia) ltac:(assumption)) as [? ?] ]
  end.

Ltac main_cpp_step :=
  try unfold ParseNumberExpr, LogError in *; simpl in *;
  match goal with
  | H : None = Some _ |- _ => discriminate H
  | H : Some _ = Some _ |- _ => simplify_eq
  | H : (?c ≫= _) = Some _ |- _ =>
      lazymatch c with
      | (if ?b then _ else _) => destruct b eqn:?
      | Some _ => fail
      | _ =>
          let E := fresh "E" in
          destruct c as [[? ?]|] eqn:E; [main_cpp_IH E | discriminate H]
      end
  | H : context [match ?x with _ => _ end] |- _ => destruct x eqn:?
  end.

Lemma Parse_main_cpp_all (n : nat) :
  (forall s r s', ParsePrimary main_cpp n s = Some (r, s') ->
     default_state s -> default_state s' /\ no_operators r)
  /\ (forall s r s', ParseParenExpr main_cpp n s = Some (r, s') ->
        default_state s -> default_state s' /\ no_operators r)
  /\ (forall s r s', ParseIdentifierExpr main_cpp n s = Some (r, s') ->
        default_state s -> default_state s' /\ no_operators r)
  /\ (forall s Args r s',
        ParseIdentifierExpr_loop main_cpp n s Args = Some (r, s') ->
        default_state s -> no_operators_list (Some Args) ->
        default_state s' /\ no_operators_list r)
  /\ (forall ExprPrec LHS s r s',
        ParseBinOpRHS main_cpp n ExprPrec LHS s = Some (r, s') ->
        default_state s -> 0 <= ExprPrec -> no_operators (Some LHS) ->
        default_state s' /\ no_operators r)
  /\ (forall s r s', ParseExpression main_cpp n s = Some (r, s') ->
        default_state s -> default_state s' /\ no_operators r).
Proof.
  induction n as [|n IH].
  - repeat split; intros; discriminate.
  - destruct IH as (IH1 & IH2 & IH3 & IH4 & IH5 & IH6).
    split; [|split; [|split; [|split; [|split]]]].
    5:{ intros ExprPrec LHS s r s' H Hs Hp HL.
        destruct Hs as (Hc & Ht & Hz).
        rewrite (ParseBinOpRHS_main_cpp_default n ExprPrec LHS s Ht Hz Hp)
          in H.
        injection H as <- <-. split; [|exact HL].
        destruct (GetTokPrecedence main_cpp s) as [p s1] eqn:G.
        apply (default_state_GetTokPrecedence main_cpp s s1 p G).
        split; [exact Hc|]. now split. }
    all: intros; repeat main_cpp_step.
    all: try match goal with
             | H : _ = Some (?r, _) |- _ /\ _ ?r =>
                 main_cpp_IH H; split; assumption
             end.
    all: split; [eauto 6 with default_state|]; simpl; auto.
    all: now apply no_operators_snoc.
Qed.

Lemma ParsePrototype_loop_default_state (n : nat) :
  forall (s : state) (ArgNames : list string) l s',
  ParsePrototype_loop n s ArgNames = Some (l, s') ->
  default_state s -> default_state s'.
Proof.
  induction n as [|n IH]; intros s ArgNames l s' H Hs; [discriminate|].
  simpl in H. destruct (CurTok (getNextToken s) =? tok_identifier).
  - eapply IH; [exact H|]. now apply default_state_getNextToken.
  - injection H as _ <-. now apply default_state_getNextToken.
Qed.

Lemma ParsePrototype_default_state (n : nat) (s : state) r s' :
  ParsePrototype n s = Some (r, s') -> default_state s -> default_state s'.
Proof.
  unfold ParsePrototype, LogError. intros H Hs.
  destruct (negb (CurTok s =? tok_identifier)); [now simplify_eq|].
  destruct (negb (CurTok (getNextToken s) =? chr "("));
    [simplify_eq; now apply default_state_getNextToken|].
  destruct (ParsePrototype_loop n (getNextToken s) [])
    as [[ArgNames s1]|] eqn:E; [|discriminate H].
  apply ParsePrototype_loop_default_state in E;
    [|now apply default_state_getNextToken].
  simpl in H. destruct (negb (CurTok s1 =? chr ")")); simplify_eq;
    [exact E | now apply default_state_getNextToken].
Qed.

(** X15.  [src/main.cpp] parses no binary operator.  From the start of
    [main] on any input, and from every state the lexer can leave with the
    table of [main], no tree that [ParseExpression], [ParseDefinition] or
    [ParseTopLevelExpr] of [src/main.cpp] returns has a [BinaryExprAST]
    node: [GetTokPrecedence] gives every token the precedence [-1]. *)
Theorem Parse_main_cpp_no_operator :
  (forall input : string, default_state (start input))
  /\ (forall fuel s e s',
        default_state s ->
        ParseExpression main_cpp fuel s = Some (Some e, s') ->
        operators e = [])
  /\ (forall fuel s F s',
        default_state s ->
        ParseDefinition main_cpp fuel s = Some (Some F, s') ->
        operators (Body F) = [])
  /\ (forall fuel s F s',
        default_state s ->
        ParseTopLevelExpr main_cpp fuel s = Some (Some F, s') ->
        operators (Body F) = []).
Proof.
  assert (HE : forall fuel s e s',
             default_state s ->
             ParseExpression main_cpp fuel s = Some (Some e, s') ->
             operators e = []).
  { intros fuel s e s' Hs H.
    destruct (Parse_main_cpp_all fuel) as (_ & _ & _ & _ & _ & H6).
    exact (proj2 (H6 _ _ _ H Hs)). }
  split; [exact default_state_start|]. split; [exact HE|]. split.
  - intros fuel s F s' Hs H. unfold ParseDefinition in H.
    destruct (ParsePrototype fuel (getNextToken s)) as [[[P|] s1]|] eqn:EP;
      simpl in H; try discriminate H.
    destruct (ParseExpression main_cpp fuel s1) as [[[E|] s2]|] eqn:EE;
      simpl in H; try discriminate H.
    injection H as <- <-. simpl. eapply HE; [|exact EE].
    eapply ParsePrototype_default_state; [exact EP|].
    now apply default_state_getNextToken.
  - intros fuel s F s' Hs H. unfold ParseTopLevelExpr in H.
    destruct (ParseExpression main_cpp fuel s) as [[[E|] s2]|] eqn:EE;
      simpl in H; try discriminate H.
    injection H as <- <-. simpl. eapply HE; [exact Hs | exact EE].
Qed.

End MainCppOperators.

(** * Prototypes and the precedence of [part_001] *)

Section PrototypeSpec.

(** X16.  [ParsePrototype].  Without an identifier as the current token it
    fails with ["Expected function name in prototype"] and consumes
    nothing; with an identifier not followed by ['('] it fails with
    ["Expected '(' in prototype"]; after the name and ['('] it collects the
    identifiers that follow, in their order, up to the first token [t]
    that is not one, and returns the prototype, having consumed [t], when
    [t] is [')'], and fails with ["Expected ')' in prototype"], leaving [t]
    as the current token, otherwise. *)
Theorem ParsePrototype_spec (fuel : nat) (s : state) :
  (CurTok s <> tok_identifier ->
   ParsePrototype fuel s
   = Some (None, print s (Error "Expected function name in prototype")))
  /\ (CurTok s = tok_identifier ->
      CurTok (getNextToken s) <> chr "(" ->
      ParsePrototype fuel s
      = Some (None,
              print (getNextToken s) (Error "Expected '(' in prototype")))
  /\ (forall (n : nat) (t : Z),
        CurTok s = tok_identifier ->
        tokens (S (S n)) s
        = (chr "(" :: repeat tok_identifier n ++ [t])%list ->
        t <> tok_identifier ->
        (n < fuel)%nat ->
        ParsePrototype fuel s
        = if t =? chr ")"
          then Some (Some (mkPrototypeAST (IdentifierStr s)
                             (identifiers n (getNextToken s))),
                     advance (3 + n) s)
          else Some (None,
                     print (advance (2 + n) s)
                       (Error "Expected ')' in prototype"))).
Proof.
  split; [apply ParsePrototype_no_name|].
  split; [apply ParsePrototype_no_paren|].
  intros n t. apply ParsePrototype_params.
Qed.

(** X16 on ["extern atan2(y x);"]: the prototype of [atan2]. *)
Lemma ParsePrototype_spec_witness :
  ParsePrototype 3 (getNextToken (start "extern atan2(y x);"))
  = Some (Some (mkPrototypeAST "atan2" ["y"; "x"]),
          advance 6 (start "extern atan2(y x);")).
Proof.
  refine (eq_trans
            (proj2 (proj2 (ParsePrototype_spec 3
                             (getNextToken (start "extern atan2(y x);"))))
               2%nat (chr ")") _ _ _ _) _).
  - vm_compute. reflexivity.
  - vm_compute. reflexivity.
  - discriminate.
  - lia.
  - vm_compute. reflexivity.
Defined.

(** X17.  [GetTokPrecedence] of [part_001], when every operator of the
    table is an ASCII character: it returns the precedence the table gives
    to the character of the current token when that is positive, and [-1]
    for every other token; what it returns is [-1] or positive. *)
Theorem GetTokPrecedence_part_001_table (s : state) :
  (forall k v, BinopPrecedence s !! k = Some v -> 0 < v -> chr k < 128) ->
  fst (GetTokPrecedence part_001 s)
  = registered_precedence (BinopPrecedence s) (CurTok s)
  /\ (fst (GetTokPrecedence part_001 s) = -1
      \/ 0 < fst (GetTokPrecedence part_001 s)).
Proof.
  intros Hkeys. split; [now apply GetTokPrecedence_part_001_registered|].
  rewrite GetTokPrecedence_value.
  destruct (precedence_guard part_001 (CurTok s)); [now left|].
  destruct (BinopPrecedence s !! char_of_int (CurTok s)) as [v|];
    [|now left].
  destruct (Z.ltb_spec 0 v); [now right | now left].
Qed.

(** X17 with the table of [main] and the current token ['*']. *)
Lemma GetTokPrecedence_part_001_table_witness :
  fst (GetTokPrecedence part_001 (start "*")) = 40.
Proof.
  refine (eq_trans
            (proj1 (GetTokPrecedence_part_001_table (start "*") _)) _).
  - intros k v Hk _. rewrite start_table in Hk.
    now apply default_table_lookup in Hk.
  - vm_compute. reflexivity.
Defined.

End PrototypeSpec.

(** * The further properties at work *)

Section Instances.

(** X1 after the end of an empty input. *)
Lemma getTok_at_EOF_witness :
  getTok (set_lexer (initial "") EOF "")
  = (tok_eof, set_lexer (initial "") EOF "").
Proof. exact (getTok_at_EOF (set_lexer (initial "") EOF "") eq_refl). Defined.

(** X2 on the word ["def"] of ["def foo"]. *)
Lemma getTok_word_witness :
  getTok (set_lexer (initial "") (chr "d") "ef foo")
  = (tok_def,
     set_IdentifierStr (set_lexer (initial "") (chr " ") "foo") "def").
Proof.
  exact (getTok_word (set_lexer (initial "") (chr "d") "ef foo") "ef" " foo"
           eq_refl eq_refl eq_refl eq_refl).
Defined.

(** X3 on a comment that ends with a line feed, before the number 7. *)
Lemma getTok_comment_witness :
  getTok (set_lexer (initial "") (chr "#")
            ("note" ++ String "010"%char "7"))
  = getTok (set_lexer (initial "") (chr "010"%char) "7").
Proof.
  exact (proj1 (getTok_comment
                  (set_lexer (initial "") (chr "#")
                     ("note" ++ String "010"%char "7"))
                  "note" eq_refl eq_refl)
           "010"%char "7" eq_refl eq_refl).
Defined.

(** X4 at the start of the program, where the cursor is on a space. *)
Lemma getTok_whitespace_witness :
  getTok (initial "x") = getTok (set_lexer (initial "x") (chr "x") "").
Proof. exact (getTok_whitespace (initial "x") eq_refl). Defined.

(** X5 on ['+']. *)
Lemma getTok_punctuation_witness :
  getTok (set_lexer (initial "") (chr "+") "1")
  = (chr "+", set_lexer (initial "") (chr "1") "").
Proof.
  exact (getTok_punctuation (set_lexer (initial "") (chr "+") "1") eq_refl).
Defined.

(** X6 on spaces and a comment. *)
Lemma getTok_blank_witness :
  getTok (initial "  # nothing") = (tok_eof, set_lexer (initial "") EOF "").
Proof. exact (getTok_blank (initial "  # nothing") eq_refl eq_refl). Defined.

(** X7 on ["define"], a word that starts like a keyword. *)
Lemma getTok_token_witness :
  fst (getTok (initial "define")) = tok_identifier
  /\ IdentifierStr (snd (getTok (initial "define"))) = "define".
Proof.
  destruct (getTok_token (initial "define")
              ltac:(change (-1 <= 32 < 256); lia))
    as [[H _]|[[H _]|[[H _]|[H|[H|[[H _] _]]]]]].
  all: first [ split; vm_compute; reflexivity
             | vm_compute in H; discriminate H
             | vm_compute in H; contradiction H; reflexivity ].
Defined.

(** X8 on the first word of ["x y"]. *)
Lemma getTok_consumes_witness :
  (remaining (snd (getTok (initial "x y"))) < remaining (initial "x y"))%nat.
Proof.
  apply (proj1 (proj2 (getTok_consumes (initial "x y")))).
  vm_compute. discriminate.
Defined.

(** X9 on ["foo(1,"]: a failure, and one diagnostic. *)
Lemma Parse_reports_witness :
  match ParseExpression part_001 7 (start "foo(1,") with
  | Some (r, s') => reports expression_errors (start "foo(1,") s' r
  | None => False
  end.
Proof.
  destruct (ParseExpression part_001 7 (start "foo(1,")) as [[r s']|] eqn:E.
  - exact (proj1 (Parse_reports part_001) 7%nat (start "foo(1,") r s' E).
  - vm_compute in E. discriminate E.
Defined.

(** X10 on ["1+2*3"]. *)
Lemma Parse_operators_witness :
  match ParseExpression part_001 4 (start "1+2*3") with
  | Some (Some e, _) =>
      operators_registered (BinopPrecedence (start "1+2*3")) e
  | _ => False
  end.
Proof.
  destruct (ParseExpression part_001 4 (start "1+2*3"))
    as [[[e|] s']|] eqn:E.
  - exact (proj1 (Parse_operators part_001) 4%nat (start "1+2*3") e s' E).
  - vm_compute in E. discriminate E.
  - vm_compute in E. discriminate E.
Defined.

(** X11 on ["1+2*3"]. *)
Lemma Parse_terminates_witness :
  advances (start "1+2*3") (ParseExpression part_001 40 (start "1+2*3")).
Proof.
  refine (proj1 (Parse_terminates part_001 40 (start "1+2*3") _)).
  vm_compute. lia.
Defined.

(** X13 on spaces and a comment. *)
Lemma main_blank_witness :
  stderr <$> main 1 "  # nothing" = Some [Ready; Ready].
Proof. exact (main_blank "  # nothing" 0 eq_refl). Defined.

(** X15 on ["1+2*3"]. *)
Lemma Parse_main_cpp_no_operator_witness :
  match ParseExpression main_cpp 4 (start "1+2*3") with
  | Some (Some e, _) => operators e = []
  | _ => False
  end.
Proof.
  destruct (ParseExpression main_cpp 4 (start "1+2*3"))
    as [[[e|] s']|] eqn:E.
  - exact (proj1 (proj2 Parse_main_cpp_no_operator) 4%nat (start "1+2*3")
             e s' (proj1 Parse_main_cpp_no_operator "1+2*3") E).
  - vm_compute in E. discriminate E.
  - vm_compute in E. discriminate E.
Defined.

End Instances.
